(** * Ball trajectory prediction: [utils/BallPhysics.ts]

    A shallow embedding of the trajectory simulator [getPredictedPath], of its
    wall collision resolver [checkWallCollisions] and of the geometry helpers
    of the same file, together with the properties the specification states
    about them.

    The TypeScript code computes with JavaScript [number]s.  The embedding is
    written once, over an interface [JSNumber] of the operators and [Math]
    members the file uses, and is read at two instances:

    - [Float64]: IEEE 754 binary64 (Rocq's primitive floats), the arithmetic a
      JavaScript engine performs, with NaN, infinities and rounding; every
      definition evaluates there;
    - [Real]: exact real arithmetic, the idealisation in which the
      specification phrases its metric properties ("within floating-point
      tolerance").

    Properties of the control flow are proved for every instance at once;
    the metric ones (containment, decay) are proved at [Real].

    The other helpers of the file and the code that calls the simulator
    (the cue stick, the prediction line and the screen) are embedded the
    same way, after the simulator.

    The file has two parts: the definitions (numbers, data model, program,
    views of a run, concrete inputs), then the properties. *)

From Stdlib Require Import Bool Arith ZArith QArith Lia List Sorted.
From Stdlib Require Import Floats.
From Stdlib Require Import Reals Lra Qreals.
Import ListNotations.

Set Implicit Arguments.
Set Warnings "-inexact-float".
Close Scope Q_scope.

(** * Part I: definitions *)

(** ** JavaScript numbers *)

Declare Scope js_scope.
Delimit Scope js_scope with js.

(** The operators and [Math] members used by [BallPhysics.ts].  [lit q] is
    the number a decimal literal [q] denotes, [rem] is [%], and [a >= b] is
    [le b a].  The three laws hold in IEEE arithmetic as well as in the
    reals. *)
Class JSNumber (num : Type) : Type := {
  add : num -> num -> num;
  sub : num -> num -> num;
  mul : num -> num -> num;
  div : num -> num -> num;
  rem : num -> num -> num;
  neg : num -> num;
  lt : num -> num -> bool;
  le : num -> num -> bool;
  isFinite : num -> bool;
  lit : Q -> num;
  Math_abs : num -> num;
  Math_sqrt : num -> num;
  Math_cos : num -> num;
  Math_sin : num -> num;
  Math_atan2 : num -> num -> num;
  Math_PI : num;
  lt_le_false : forall a b, lt a b = true -> le b a = false;
  abs_abs : forall a, Math_abs (Math_abs a) = Math_abs a;
  abs_neg : forall a, Math_abs (neg a) = Math_abs a
}.

Definition ge {num} `{JSNumber num} (a b : num) : bool := le b a.

Infix "+" := add : js_scope.
Infix "-" := sub : js_scope.
Infix "*" := mul : js_scope.
Infix "/" := div : js_scope.
Infix "mod" := rem : js_scope.
Notation "- a" := (neg a) : js_scope.
Infix "<?" := lt : js_scope.
Infix "<=?" := le : js_scope.
Infix ">=?" := ge (at level 70) : js_scope.

(** *** IEEE 754 binary64 *)

Module Float64Ops.

(** The double nearest to an integer. *)
Definition of_Z (z : Z) : float :=
  SF2Prim (binary_normalize prec emax z 0 false).

(** A decimal literal [n/d]: the correctly rounded quotient of two integers
    that are doubles themselves, as all literals of the file are; this is
    the double nearest to the literal ([literals_binary64]). *)
Definition of_Q (q : Q) : float :=
  PrimFloat.div (of_Z (Qnum q)) (of_Z (Zpos (Qden q))).

(** ECMA-262 [Number::remainder] (the [%] operator): the result has the sign
    of the dividend and is exact. *)
Definition fmod (n d : float) : float :=
  match Prim2SF n, Prim2SF d with
  | S754_nan, _ | _, S754_nan => nan
  | S754_infinity _, _ => nan
  | _, S754_zero _ => nan
  | _, S754_infinity _ => n
  | S754_zero _, _ => n
  | S754_finite sn mn en, S754_finite _ md ed =>
      let e := Z.min en ed in
      let N := (Zpos mn * 2 ^ (en - e))%Z in
      let D := (Zpos md * 2 ^ (ed - e))%Z in
      let r := Z.rem N D in
      if (r =? 0)%Z then SF2Prim (S754_zero sn)
      else SF2Prim (binary_normalize prec emax (cond_Zopp sn r) e sn)
  end.

(** [Math.PI] *)
Definition PI : float := 0x1.921fb54442d18p+1%float.

(** [Math.cos], [Math.sin] and [Math.atan2] are implementation-approximated
    in ECMA-262 (21.3.2), which fixes their values at special arguments only.
    This instance takes truncated power series after argument reduction; it
    meets the fixed values the examples below rely on ([cos 0 = 1],
    [sin 0 = 0], a non-finite argument gives NaN).  No property proved for
    every instance depends on the choice. *)
Fixpoint series (n : nat) (term k x2 acc : float) : float :=
  match n with
  | O => acc
  | S n' =>
      let term' := (- term * x2 / ((k + 1) * (k + 2)))%float in
      series n' term' (k + 2)%float x2 (acc + term')%float
  end.

Definition reduce (a : float) : float :=
  let r := fmod a (2 * PI)%float in
  if (PI <? r)%float then (r - 2 * PI)%float
  else if (r <? - PI)%float then (r + 2 * PI)%float else r.

Definition cos (a : float) : float :=
  if negb (is_finite a) then nan
  else let r := reduce a in series 16 1%float 0%float (r * r)%float 1%float.

Definition sin (a : float) : float :=
  if negb (is_finite a) then nan
  else let r := reduce a in series 16 r 1%float (r * r)%float r.

Fixpoint atan_series (n : nat) (pow k t2 acc : float) : float :=
  match n with
  | O => acc
  | S n' =>
      let pow' := (- pow * t2)%float in
      atan_series n' pow' (k + 2)%float t2 (acc + pow' / (k + 2))%float
  end.

Definition halve (t : float) : float :=
  (t / (1 + PrimFloat.sqrt (1 + t * t)))%float.

Definition atan (t : float) : float :=
  let big := (1 <? abs t)%float in
  let u := if big then (1 / t)%float else t in
  let h := halve (halve u) in
  let a := (4 * atan_series 24 h 1%float (h * h)%float h)%float in
  if big then
    if (0 <? t)%float then (PI / 2 - a)%float else (- (PI / 2) - a)%float
  else a.

Definition atan2 (y x : float) : float :=
  if is_nan y || is_nan x then nan
  else if (0 <? x)%float then atan (y / x)%float
  else if (x <? 0)%float then
    if (y <? 0)%float then (atan (y / x) - PI)%float
    else (atan (y / x) + PI)%float
  else if (0 <? y)%float then (PI / 2)%float
  else if (y <? 0)%float then (- (PI / 2))%float
  else y.

End Float64Ops.

#[export] Program Instance Float64 : JSNumber float := {
  add := PrimFloat.add;
  sub := PrimFloat.sub;
  mul := PrimFloat.mul;
  div := PrimFloat.div;
  rem := Float64Ops.fmod;
  neg := PrimFloat.opp;
  lt := PrimFloat.ltb;
  le := PrimFloat.leb;
  isFinite := PrimFloat.is_finite;
  lit := Float64Ops.of_Q;
  Math_abs := PrimFloat.abs;
  Math_sqrt := PrimFloat.sqrt;
  Math_cos := Float64Ops.cos;
  Math_sin := Float64Ops.sin;
  Math_atan2 := Float64Ops.atan2;
  Math_PI := Float64Ops.PI
}.
Next Obligation.
  revert H. rewrite ltb_spec, leb_spec. unfold SFltb, SFleb.
  destruct (Prim2SF a) as [sa|sa| |sa ma ea], (Prim2SF b) as [sb|sb| |sb mb eb];
    try destruct sa; try destruct sb; simpl; try congruence;
    change (Pos.compare_cont Eq ma mb) with (ma ?= mb)%positive;
    change (Pos.compare_cont Eq mb ma) with (mb ?= ma)%positive;
    rewrite (Z.compare_antisym ea eb), (Pos.compare_antisym ma mb);
    destruct (ea ?= eb)%Z; simpl; try congruence;
    destruct (ma ?= mb)%positive; simpl; congruence.
Qed.
Next Obligation.
  apply Prim2SF_inj. rewrite !abs_spec. now destruct (Prim2SF a).
Qed.
Next Obligation.
  apply Prim2SF_inj. rewrite !abs_spec, opp_spec. now destruct (Prim2SF a).
Qed.

(** *** Exact real arithmetic *)

Module RealOps.

Definition ltb (a b : R) : bool := if Rlt_dec a b then true else false.
Definition leb (a b : R) : bool := if Rle_dec a b then true else false.

(** Rounding toward zero, and the truncated remainder of [%]. *)
Definition trunc (a : R) : R :=
  if Rle_dec 0 a then IZR (Int_part a) else (- IZR (Int_part (- a)))%R.

Definition fmod (n d : R) : R := (n - d * trunc (n / d))%R.

(** The angle of the point [(x, y)], in [(-PI, PI]]. *)
Definition atan2 (y x : R) : R :=
  if Rlt_dec 0 x then atan (y / x)
  else if Rlt_dec x 0 then
    if Rlt_dec y 0 then (atan (y / x) - PI)%R else (atan (y / x) + PI)%R
  else if Rlt_dec 0 y then (PI / 2)%R
  else if Rlt_dec y 0 then (- (PI / 2))%R
  else 0%R.

End RealOps.

(** Every real is finite: NaN and the infinities have no counterpart. *)
#[export] Program Instance Real : JSNumber R := {
  add := Rplus;
  sub := Rminus;
  mul := Rmult;
  div := Rdiv;
  rem := RealOps.fmod;
  neg := Ropp;
  lt := RealOps.ltb;
  le := RealOps.leb;
  isFinite := fun _ => true;
  lit := Q2R;
  Math_abs := Rabs;
  Math_sqrt := sqrt;
  Math_cos := cos;
  Math_sin := sin;
  Math_atan2 := RealOps.atan2;
  Math_PI := PI
}.
Next Obligation.
  revert H. unfold RealOps.ltb, RealOps.leb.
  destruct (Rlt_dec a b), (Rle_dec b a); try congruence; lra.
Qed.
Next Obligation. apply Rabs_Rabsolu. Qed.
Next Obligation. apply Rabs_Ropp. Qed.

(** ** Data model *)

Module Point.
Record t (num : Type) : Type := mk { x : num; y : num }.
Definition with_x {num} (p : t num) (v : num) : t num := mk v (y p).
Definition with_y {num} (p : t num) (v : num) : t num := mk (x p) v.
End Point.
Abbreviation Point := Point.t.

Module Velocity.
Record t (num : Type) : Type := mk { vx : num; vy : num }.
Definition with_vx {num} (w : t num) (v : num) : t num := mk v (vy w).
Definition with_vy {num} (w : t num) (v : num) : t num := mk (vx w) v.
End Velocity.
Abbreviation Velocity := Velocity.t.

(** The object [getPredictedPath] is called with.  [maxBounces] is optional
    (default 10); it is a count of bounces, a natural number. *)
Module PredictedPathParams.
Record t (num : Type) : Type := mk {
  x : num;
  y : num;
  angleInDegrees : num;
  force : num;
  tableWidth : num;
  tableHeight : num;
  maxBounces : option nat
}.
End PredictedPathParams.
Abbreviation PredictedPathParams := PredictedPathParams.t.

(** [maxPoints] is compared with [path.length]: a natural number. *)
Record PhysicsConfig (num : Type) : Type := {
  ballRadius : num;
  friction : num;
  minVelocity : num;
  timeStep : num;
  maxPoints : nat;
  velocityScale : num
}.

(** What [checkWallCollisions] returns. *)
Record Collision (num : Type) : Type := {
  hasCollision : bool;
  collisionPoint : Point num;
  newVelocity : Velocity num
}.

(** The local variables of [getPredictedPath] that its loop updates. *)
Record Locals (num : Type) : Type := {
  currentX : num;
  currentY : num;
  vx : num;
  vy : num;
  bounces : nat;
  path : list (Point num)
}.

(** ** The program *)

Section BallPhysics.

Context {num : Type} `{JSNumber num}.
Local Open Scope js_scope.

(** The configuration of the first copy of the file; the second copy
    differs in [ballRadius: 4] only. *)
Definition DEFAULT_CONFIG : PhysicsConfig num := {|
  ballRadius := lit 8;
  friction := lit 0.985;
  minVelocity := lit 0.3;
  timeStep := lit 0.08;
  maxPoints := 300;
  velocityScale := lit 0.15
|}.

(** *** Wall collision resolver *)

(** [collisionPoint] and [newVelocity] start as copies of [nextPos] and
    [velocity]; the horizontal [if / else if] and then the vertical one
    overwrite one coordinate each.  [currentPos] is not read. *)
Definition checkWallCollisions (currentPos nextPos : Point num)
    (velocity : Velocity num) (tableWidth tableHeight ballRadius : num)
    : Collision num :=
  let r := {| hasCollision := false;
              collisionPoint := nextPos;
              newVelocity := velocity |} in
  let r :=
    if Point.x nextPos - ballRadius <=? lit 0 then
      {| hasCollision := true;
         collisionPoint := Point.with_x (collisionPoint r) ballRadius;
         newVelocity :=
           Velocity.with_vx (newVelocity r) (Math_abs (Velocity.vx velocity)) |}
    else if Point.x nextPos + ballRadius >=? tableWidth then
      {| hasCollision := true;
         collisionPoint :=
           Point.with_x (collisionPoint r) (tableWidth - ballRadius);
         newVelocity :=
           Velocity.with_vx (newVelocity r)
             (- Math_abs (Velocity.vx velocity)) |}
    else r in
  let r :=
    if Point.y nextPos - ballRadius <=? lit 0 then
      {| hasCollision := true;
         collisionPoint := Point.with_y (collisionPoint r) ballRadius;
         newVelocity :=
           Velocity.with_vy (newVelocity r) (Math_abs (Velocity.vy velocity)) |}
    else if Point.y nextPos + ballRadius >=? tableHeight then
      {| hasCollision := true;
         collisionPoint :=
           Point.with_y (collisionPoint r) (tableHeight - ballRadius);
         newVelocity :=
           Velocity.with_vy (newVelocity r)
             (- Math_abs (Velocity.vy velocity)) |}
    else r in
  r.

(** *** Trajectory simulator *)

Section Loop.

Variable config : PhysicsConfig num.
Variables tableWidth tableHeight : num.
Variable maxBounces : nat.

(** The loop test [bounces < maxBounces && path.length < config.maxPoints]. *)
Definition loopTest (s : Locals num) : bool :=
  (bounces s <? maxBounces)%nat && (length (path s) <? maxPoints config)%nat.

(** The collision query of one iteration. *)
Definition collisionOf (s : Locals num) : Collision num :=
  let nextX := currentX s + vx s * timeStep config in
  let nextY := currentY s + vy s * timeStep config in
  checkWallCollisions
    {| Point.x := currentX s; Point.y := currentY s |}
    {| Point.x := nextX; Point.y := nextY |}
    {| Velocity.vx := vx s; Velocity.vy := vy s |}
    tableWidth tableHeight (ballRadius config).

(** One iteration up to and including the friction update: the proposed
    position, the collision branch, then [vx *= friction; vy *= friction]. *)
Definition advance (s : Locals num) : Locals num :=
  let nextX := currentX s + vx s * timeStep config in
  let nextY := currentY s + vy s * timeStep config in
  let collision := collisionOf s in
  let s :=
    if hasCollision collision then
      let bounceEnergyLoss := lit 0.92 in
      {| currentX := Point.x (collisionPoint collision);
         currentY := Point.y (collisionPoint collision);
         vx := Velocity.vx (newVelocity collision) * bounceEnergyLoss;
         vy := Velocity.vy (newVelocity collision) * bounceEnergyLoss;
         bounces := S (bounces s);
         path := path s |}
    else
      {| currentX := nextX;
         currentY := nextY;
         vx := vx s;
         vy := vy s;
         bounces := bounces s;
         path := path s |} in
  {| currentX := currentX s;
     currentY := currentY s;
     vx := vx s * friction config;
     vy := vy s * friction config;
     bounces := bounces s;
     path := path s |}.

(** [Math.sqrt(vx * vx + vy * vy)] *)
Definition speed (s : Locals num) : num :=
  Math_sqrt (vx s * vx s + vy s * vy s).

(** The stop test [velocity < config.minVelocity]. *)
Definition stopped (s : Locals num) : bool :=
  speed s <? minVelocity config.

(** [path.push({ x: currentX, y: currentY })] *)
Definition push (s : Locals num) : Locals num :=
  {| currentX := currentX s;
     currentY := currentY s;
     vx := vx s;
     vy := vy s;
     bounces := bounces s;
     path := path s ++ [ {| Point.x := currentX s; Point.y := currentY s |} ] |}.

(** The [while] loop.  An iteration that does not [break] pushes a point,
    so [maxPoints - path.length] iterations are the most the loop test
    lets through; [fuel] only has to cover them ([whileLoop_exec]). *)
Fixpoint whileLoop (fuel : nat) (s : Locals num) : Locals num :=
  match fuel with
  | O => s
  | S fuel' =>
      if loopTest s then
        let s' := advance s in
        if stopped s' then s' else whileLoop fuel' (push s')
      else s
  end.

(** The loop as a big-step relation: the locals it is entered with, the
    locals it is left with. *)
Inductive while_exec : Locals num -> Locals num -> Prop :=
| exec_exit s :
    loopTest s = false -> while_exec s s
| exec_break s :
    loopTest s = true -> stopped (advance s) = true ->
    while_exec s (advance s)
| exec_continue s t :
    loopTest s = true -> stopped (advance s) = false ->
    while_exec (push (advance s)) t -> while_exec s t.

(** The states at the head of the iterations the loop executes, in order
    (a view of the run used to state properties of every iteration). *)
Fixpoint iterations (fuel : nat) (s : Locals num) : list (Locals num) :=
  match fuel with
  | O => []
  | S fuel' =>
      if loopTest s then
        let s' := advance s in
        s :: (if stopped s' then [] else iterations fuel' (push s'))
      else []
  end.

End Loop.

(** The locals before the first loop test. *)
Definition initialLocals (p : PredictedPathParams num) : Locals num :=
  let config := DEFAULT_CONFIG in
  let angleInRadians :=
    PredictedPathParams.angleInDegrees p * Math_PI / lit 180 in
  let vx := Math_cos angleInRadians * PredictedPathParams.force p
            * velocityScale config in
  let vy := Math_sin angleInRadians * PredictedPathParams.force p
            * velocityScale config in
  let currentX := PredictedPathParams.x p in
  let currentY := PredictedPathParams.y p in
  {| currentX := currentX;
     currentY := currentY;
     vx := vx;
     vy := vy;
     bounces := 0;
     path := [ {| Point.x := currentX; Point.y := currentY |} ] |}.

(** [maxBounces = 10] when the caller leaves it out. *)
Definition maxBouncesOf (p : PredictedPathParams num) : nat :=
  match PredictedPathParams.maxBounces p with
  | Some n => n
  | None => 10
  end.

(** The validation [force <= 0 || !isFinite(angleInDegrees)]. *)
Definition rejected (p : PredictedPathParams num) : bool :=
  (PredictedPathParams.force p <=? lit 0)
  || negb (isFinite (PredictedPathParams.angleInDegrees p)).

(** The locals when the loop of an accepted request is left. *)
Definition finalLocals (p : PredictedPathParams num) : Locals num :=
  let config := DEFAULT_CONFIG in
  whileLoop config
    (PredictedPathParams.tableWidth p) (PredictedPathParams.tableHeight p)
    (maxBouncesOf p) (maxPoints config) (initialLocals p).

Definition getPredictedPath (p : PredictedPathParams num) : list (Point num) :=
  if rejected p then [] else path (finalLocals p).

(** *** Geometry helpers *)

Definition calculateAngleBetweenPoints (point1 point2 : Point num) : num :=
  let deltaX := Point.x point2 - Point.x point1 in
  let deltaY := Point.y point2 - Point.y point1 in
  let angleRad := Math_atan2 deltaY deltaX in
  angleRad * lit 180 / Math_PI.

Definition calculateDistance (point1 point2 : Point num) : num :=
  let deltaX := Point.x point2 - Point.x point1 in
  let deltaY := Point.y point2 - Point.y point1 in
  Math_sqrt (deltaX * deltaX + deltaY * deltaY).

Definition normalizeAngle (angleInDegrees : num) : num :=
  let normalized := angleInDegrees mod lit 360 in
  if normalized <? lit 0 then normalized + lit 360 else normalized.

(** The legacy helpers at the end of the file. *)
Definition calculateAngle (point1 point2 : Point num) : num :=
  Math_atan2 (Point.y point2 - Point.y point1) (Point.x point2 - Point.x point1).


(** [while (angle < 0) angle += 2 * Math.PI] *)
Fixpoint raiseAngle (fuel : nat) (angle : num) : option num :=
  if angle <? lit 0 then
    match fuel with
    | O => None
    | S fuel' => raiseAngle fuel' (angle + lit 2 * Math_PI)
    end
  else Some angle.

(** [while (angle >= 2 * Math.PI) angle -= 2 * Math.PI] *)
Fixpoint lowerAngle (fuel : nat) (angle : num) : option num :=
  if angle >=? lit 2 * Math_PI then
    match fuel with
    | O => None
    | S fuel' => lowerAngle fuel' (angle - lit 2 * Math_PI)
    end
  else Some angle.

(** Its two loops need not terminate in floating point (an infinite
    [angle] is never lowered), so the result is partial: [None] is "no
    result within [fuel] iterations of either loop". *)
Definition normalizeAngleOld (fuel : nat) (angle : num) : option num :=
  match raiseAngle fuel angle with
  | Some angle => lowerAngle fuel angle
  | None => None
  end.

End BallPhysics.

(** ** Views of a run

    Names for what the properties talk about: the boundary tests, the points
    a run pushes, the collisions it processes.  They are read off the
    program's own pieces and add no behaviour. *)

Section Views.

Context {num : Type} `{JSNumber num}.
Local Open Scope js_scope.

(** The four boundary tests of [checkWallCollisions]. *)
Definition hitsLeft (nextPos : Point num) (ballRadius : num) : bool :=
  Point.x nextPos - ballRadius <=? lit 0.

Definition hitsRight (nextPos : Point num) (ballRadius tableWidth : num) : bool :=
  Point.x nextPos + ballRadius >=? tableWidth.

Definition hitsTop (nextPos : Point num) (ballRadius : num) : bool :=
  Point.y nextPos - ballRadius <=? lit 0.

Definition hitsBottom (nextPos : Point num) (ballRadius tableHeight : num) : bool :=
  Point.y nextPos + ballRadius >=? tableHeight.

(** [{ x: currentX, y: currentY }] *)
Definition position (s : Locals num) : Point num :=
  {| Point.x := currentX s; Point.y := currentY s |}.

(** The position an iteration proposes, [{ x: nextX, y: nextY }]. *)
Definition proposed (config : PhysicsConfig num) (s : Locals num) : Point num :=
  {| Point.x := currentX s + vx s * timeStep config;
     Point.y := currentY s + vy s * timeStep config |}.

Section OfIterations.

Variable config : PhysicsConfig num.
Variables tableWidth tableHeight : num.

(** The points pushed by the iterations entered in the states [heads]. *)
Definition recorded (heads : list (Locals num)) : list (Point num) :=
  flat_map (fun s =>
      let t := advance config tableWidth tableHeight s in
      if stopped config t then [] else [position t])
    heads.

(** Those of them that are wall contacts. *)
Definition contactPoints (heads : list (Locals num)) : list (Point num) :=
  flat_map (fun s =>
      let t := advance config tableWidth tableHeight s in
      if hasCollision (collisionOf config tableWidth tableHeight s)
         && negb (stopped config t)
      then [position t] else [])
    heads.

(** The number of collisions in these iterations. *)
Definition collisions (heads : list (Locals num)) : nat :=
  length
    (filter (fun s => hasCollision (collisionOf config tableWidth tableHeight s))
       heads).

End OfIterations.

(** The launch origin [{ x, y }]. *)
Definition origin (p : PredictedPathParams num) : Point num :=
  {| Point.x := PredictedPathParams.x p; Point.y := PredictedPathParams.y p |}.

(** The loop-head states of the iterations a call executes (none when the
    request is rejected). *)
Definition iterationsOf (p : PredictedPathParams num) : list (Locals num) :=
  if rejected p then []
  else
    iterations DEFAULT_CONFIG
      (PredictedPathParams.tableWidth p) (PredictedPathParams.tableHeight p)
      (maxBouncesOf p) (maxPoints DEFAULT_CONFIG) (initialLocals p).

(** The wall-collision events a call processes: the value of [bounces] when
    it returns (no event when the request is rejected). *)
Definition bounceCount (p : PredictedPathParams num) : nat :=
  if rejected p then 0 else bounces (finalLocals p).

(** The wall-contact points a call pushes onto its path. *)
Definition contactPointsOf (p : PredictedPathParams num) : list (Point num) :=
  contactPoints DEFAULT_CONFIG
    (PredictedPathParams.tableWidth p) (PredictedPathParams.tableHeight p)
    (iterationsOf p).

(** The speeds computed by the iterations of a call, in order. *)
Definition stepSpeeds (p : PredictedPathParams num) : list num :=
  map (fun s =>
         speed
           (advance DEFAULT_CONFIG (PredictedPathParams.tableWidth p)
              (PredictedPathParams.tableHeight p) s))
    (iterationsOf p).

(** C6 as the specification states it: with [maxBounces = 0] the run is free
    motion that lasts until the speed has decayed below [minVelocity] or the
    path holds [maxPoints] points, and no collision is recorded. *)
Definition motionUntilDecayOrCap (p : PredictedPathParams num) : Prop :=
  bounceCount p = 0
  /\ (stopped DEFAULT_CONFIG (finalLocals p) = true
      \/ length (getPredictedPath p) = maxPoints DEFAULT_CONFIG).

End Views.

(** The center of the ball is on the playing surface. *)
Definition onSurface (ballRadius tableWidth tableHeight : R) (pt : Point R)
    : Prop :=
  (ballRadius <= Point.x pt <= tableWidth - ballRadius
   /\ ballRadius <= Point.y pt <= tableHeight - ballRadius)%R.

(** The same test, and "non-increasing", as checks on binary64 values. *)
Definition onSurfaceb (ballRadius tableWidth tableHeight : float)
    (pt : Point float) : bool :=
  ((ballRadius <=? Point.x pt) && (Point.x pt <=? tableWidth - ballRadius)
   && (ballRadius <=? Point.y pt) && (Point.y pt <=? tableHeight - ballRadius))%float.

Fixpoint nonIncreasingb (l : list float) : bool :=
  match l with
  | a :: (b :: _) as l' => (b <=? a)%float && nonIncreasingb l'
  | _ => true
  end.

(** ** Concrete inputs *)

(** Requests on the 300 x 150 table of the specification's scenario, launched
    at (75, 75), in binary64. *)
Definition shot (force angleInDegrees : float) (maxBounces : option nat)
    : PredictedPathParams float :=
  {| PredictedPathParams.x := 75%float;
     PredictedPathParams.y := 75%float;
     PredictedPathParams.angleInDegrees := angleInDegrees;
     PredictedPathParams.force := force;
     PredictedPathParams.tableWidth := 300%float;
     PredictedPathParams.tableHeight := 150%float;
     PredictedPathParams.maxBounces := maxBounces |}.

(** A corner approach: from (1, 2) the proposed point (-1, -2) is beyond the
    left and the top boundary at once. *)
Definition cornerCurrent : Point float :=
  {| Point.x := 1%float; Point.y := 2%float |}.

Definition cornerNext : Point float :=
  {| Point.x := (-1)%float; Point.y := (-2)%float |}.

Definition cornerVelocity : Velocity float :=
  {| Velocity.vx := (-25)%float; Velocity.vy := (-50)%float |}.

(** Loop locals one step away from the top-left corner. *)
Definition cornerState : Locals float :=
  {| currentX := 9%float;
     currentY := 9%float;
     vx := (-20)%float;
     vy := (-30)%float;
     bounces := 0;
     path := [ {| Point.x := 9%float; Point.y := 9%float |} ] |}.



(** ** The other helpers of [BallPhysics.ts] *)

(** [Math.max] and [Math.min], which the callers of the simulator use. *)
Class JSMinMax (num : Type) : Type := {
  Math_max : num -> num -> num;
  Math_min : num -> num -> num
}.

Module Float64MinMax.

(** NaN when an argument is NaN; [+0] is larger than [-0]. *)
Definition max (a b : float) : float :=
  if PrimFloat.is_nan a || PrimFloat.is_nan b then nan
  else if (a <? b)%float then b
  else if (b <? a)%float then a
  else if PrimFloat.get_sign a then b else a.

Definition min (a b : float) : float :=
  if PrimFloat.is_nan a || PrimFloat.is_nan b then nan
  else if (a <? b)%float then a
  else if (b <? a)%float then b
  else if PrimFloat.get_sign b then b else a.

End Float64MinMax.

#[export] Instance Float64_MinMax : JSMinMax float := {
  Math_max := Float64MinMax.max;
  Math_min := Float64MinMax.min
}.

#[export] Instance Real_MinMax : JSMinMax R := {
  Math_max := Rmax;
  Math_min := Rmin
}.

(** [a > b] *)
Definition gt {num} `{JSNumber num} (a b : num) : bool := lt b a.
Infix ">?" := gt (at level 70) : js_scope.

(** The argument [wallType: "horizontal" | "vertical"]. *)
Inductive WallType : Type := horizontal | vertical.

(** [sub] is a sub-list of [l]: elements of [l], in the order of [l]. *)
Inductive subseq {A : Type} : list A -> list A -> Prop :=
| subseq_nil : subseq [] []
| subseq_skip a sub l : subseq sub l -> subseq sub (a :: l)
| subseq_keep a sub l : subseq sub l -> subseq (a :: sub) (a :: l).

Section MoreHelpers.

Context {num : Type} `{JSNumber num}.
Local Open Scope js_scope.

Definition degreesToRadians (degrees : num) : num :=
  degrees * Math_PI / lit 180.

Definition radiansToDegrees (radians : num) : num :=
  radians * lit 180 / Math_PI.

Definition calculateReflectionAngle (incidentAngle : num) (wallType : WallType)
    : num :=
  match wallType with
  | horizontal => - incidentAngle
  | vertical => lit 180 - incidentAngle
  end.

(** The array read [path[i]].  Every read of the two loops below is in
    range ([getSmoothedTrajectory_scan], [getBouncePoints_scan]); the value
    out of range is never looked at. *)
Definition item (path : list (Point num)) (i : nat) : Point num :=
  nth i path {| Point.x := lit 0; Point.y := lit 0 |}.

(** The body of the [for] loop of [getSmoothedTrajectory], on the pair
    [(smoothedPath, lastAddedIndex)]. *)
Definition smoothedStep (path : list (Point num)) (pointSpacing : num)
    (st : list (Point num) * nat) (i : nat) : list (Point num) * nat :=
  let (smoothedPath, lastAddedIndex) := st in
  let distance := calculateDistance (item path lastAddedIndex) (item path i) in
  if (distance >=? pointSpacing) || (i =? length path - 1)%nat
  then (smoothedPath ++ [item path i], i)
  else (smoothedPath, lastAddedIndex).

(** [pointSpacing = 10] when the caller leaves it out. *)
Definition pointSpacingOf (pointSpacing : option num) : num :=
  match pointSpacing with
  | Some d => d
  | None => lit 10
  end.

Definition getSmoothedTrajectory (path : list (Point num))
    (pointSpacing : option num) : list (Point num) :=
  let pointSpacing := pointSpacingOf pointSpacing in
  if (length path <=? 2)%nat then path
  else
    let smoothedPath := [item path 0] in
    let lastAddedIndex := 0 in
    fst (fold_left (smoothedStep path pointSpacing)
           (seq 1 (length path - 1)) (smoothedPath, lastAddedIndex)).

(** The loop of [getSmoothedTrajectory] read along the list: [last] is
    [path[lastAddedIndex]], [rest] the points not yet visited. *)
Fixpoint smoothedScan (pointSpacing : num) (last : Point num)
    (rest : list (Point num)) : list (Point num) :=
  match rest with
  | [] => []
  | p :: rest' =>
      if (calculateDistance last p >=? pointSpacing)
         || match rest' with [] => true | _ => false end
      then p :: smoothedScan pointSpacing p rest'
      else smoothedScan pointSpacing last rest'
  end.

(** [angleDiff] of [getBouncePoints] for three successive points, after the
    wrap [if (angleDiff > 180) angleDiff = 360 - angleDiff]. *)
Definition angleDiffOf (prevPoint currentPoint nextPoint : Point num) : num :=
  let angle1 := calculateAngleBetweenPoints prevPoint currentPoint in
  let angle2 := calculateAngleBetweenPoints currentPoint nextPoint in
  let angleDiff := Math_abs (angle1 - angle2) in
  if angleDiff >? lit 180 then lit 360 - angleDiff else angleDiff.

(** The body of the [for] loop of [getBouncePoints]. *)
Definition bounceStep (path : list (Point num)) (angleThreshold : num)
    (bouncePoints : list (Point num)) (i : nat) : list (Point num) :=
  let prevPoint := item path (i - 1) in
  let currentPoint := item path i in
  let nextPoint := item path (i + 1) in
  let angleDiff := angleDiffOf prevPoint currentPoint nextPoint in
  if angleDiff >? angleThreshold then bouncePoints ++ [currentPoint]
  else bouncePoints.

(** [angleThreshold = 30] when the caller leaves it out. *)
Definition angleThresholdOf (angleThreshold : option num) : num :=
  match angleThreshold with
  | Some a => a
  | None => lit 30
  end.

Definition getBouncePoints (path : list (Point num))
    (angleThreshold : option num) : list (Point num) :=
  let angleThreshold := angleThresholdOf angleThreshold in
  if (length path <? 3)%nat then []
  else
    fold_left (bounceStep path angleThreshold) (seq 1 (length path - 2)) [].

(** A loop that marks the middle point of some triples of successive
    points, read along the list. *)
Fixpoint markedScan (marks : Point num -> Point num -> Point num -> bool)
    (l : list (Point num)) : list (Point num) :=
  match l with
  | a :: (b :: l'') as l' =>
      match l'' with
      | c :: _ => (if marks a b c then [b] else []) ++ markedScan marks l'
      | [] => []
      end
  | _ => []
  end.

(** The legacy entry point: the angle is in radians, [maxBounces] is left
    out. *)
Definition calculateTrajectory (startPosition : Point num)
    (angle force tableWidth tableHeight : num) : list (Point num) :=
  getPredictedPath
    {| PredictedPathParams.x := Point.x startPosition;
       PredictedPathParams.y := Point.y startPosition;
       PredictedPathParams.angleInDegrees := angle * lit 180 / Math_PI;
       PredictedPathParams.force := force;
       PredictedPathParams.tableWidth := tableWidth;
       PredictedPathParams.tableHeight := tableHeight;
       PredictedPathParams.maxBounces := None |}.

End MoreHelpers.

(** ** The callers: [components/CueStick.tsx] *)

Module CueStick.

Record CueMetrics (num : Type) : Type := {
  angle : num;
  angleRad : num;
  pullDistance : num;
  force : num;
  touchDistance : num
}.

Section CueStick.

Context {num : Type} `{JSNumber num} `{JSMinMax num}.
Local Open Scope js_scope.

Definition RAIL_WIDTH : num := lit 20.
Definition MAX_PULL_DISTANCE : num := lit 120.
Definition MIN_PULL_DISTANCE : num := lit 20.

(** [cueBallPosition] is a property of the component. *)
Definition calculateCueMetrics (cueBallPosition : Point num)
    (touchX touchY : num) : CueMetrics num :=
  let ballCenterX := Point.x cueBallPosition + RAIL_WIDTH in
  let ballCenterY := Point.y cueBallPosition + RAIL_WIDTH in
  let deltaX := touchX - ballCenterX in
  let deltaY := touchY - ballCenterY in
  let angleRad := Math_atan2 deltaY deltaX in
  let angleDeg := angleRad * lit 180 / Math_PI in
  let touchDistance := Math_sqrt (deltaX * deltaX + deltaY * deltaY) in
  let pullDistance :=
    Math_max (lit 0)
      (Math_min (touchDistance - MIN_PULL_DISTANCE) MAX_PULL_DISTANCE) in
  let forcePercentage := pullDistance / MAX_PULL_DISTANCE * lit 100 in
  {| angle := angleDeg;
     angleRad := angleRad;
     pullDistance := pullDistance;
     force := forcePercentage;
     touchDistance := touchDistance |}.

(** What [updateCueStick] passes to the callback [onShotChange] (a property
    of the component, called with the object [{ force, angle }]); the
    animation values it sets are not modelled. *)
Definition updateCueStick {A : Type} (cueBallPosition : Point num)
    (onShotChange : num -> num -> A) (x y : num) : A :=
  let metrics := calculateCueMetrics cueBallPosition x y in
  onShotChange (force metrics) (angle metrics).

(** The end of the gesture: [onShotChange({ force: 0, angle: 0 })]. *)
Definition onEnd {A : Type} (onShotChange : num -> num -> A) : A :=
  onShotChange (lit 0) (lit 0).

End CueStick.

End CueStick.

(** ** The callers: [components/PredictionLine.tsx] *)

Module PredictionLine.

(** What the component draws: the vertices of the dashed line, the bounce
    indicators and the end point indicator, in SVG coordinates. *)
Record Drawing (num : Type) : Type := {
  svgPoints : list (num * num);
  bounceIndicators : list (num * num);
  endPointIndicator : option (num * num)
}.

Section PredictionLine.

Context {num : Type} `{JSNumber num}.
Local Open Scope js_scope.

Definition RAIL_WIDTH : num := lit 20.

(** The test of its own bounce detection: the turn in radians, compared
    with 0.5 without a wrap. *)
Definition turns (prev curr next : Point num) : bool :=
  let angle1 :=
    Math_atan2 (Point.y curr - Point.y prev) (Point.x curr - Point.x prev) in
  let angle2 :=
    Math_atan2 (Point.y next - Point.y curr) (Point.x next - Point.x curr) in
  let angleDiff := Math_abs (angle1 - angle2) in
  angleDiff >? lit 0.5.

(** The body of its [for] loop. *)
Definition bounceStep (path : list (Point num))
    (bouncePoints : list (Point num)) (i : nat) : list (Point num) :=
  let prev := item path (i - 1) in
  let curr := item path i in
  let next := item path (i + 1) in
  if turns prev curr next then bouncePoints ++ [curr] else bouncePoints.

Definition bouncePoints (path : list (Point num)) : list (Point num) :=
  fold_left (bounceStep path) (seq 1 (length path - 2)) [].

(** A point in SVG coordinates: shifted by the rail. *)
Definition toSvg (point : Point num) : num * num :=
  (Point.x point + RAIL_WIDTH, Point.y point + RAIL_WIDTH).

(** The component; [None] is [return null]. *)
Definition render (path : list (Point num)) : option (Drawing num) :=
  if (length path <? 2)%nat then None
  else
    Some {| svgPoints := map toSvg path;
            bounceIndicators := map toSvg (bouncePoints path);
            endPointIndicator :=
              if (0 <? length path)%nat
              then Some (toSvg (item path (length path - 1)))
              else None |}.

End PredictionLine.

End PredictionLine.

(** ** The callers: the screen [app/(tabs)/index.tsx] *)

Module HomeScreen.

(** The state of the screen that [handleShotChange] sets. *)
Record State (num : Type) : Type := {
  shotData : num * num;
  predictionPath : list (Point num);
  bounceCount : nat
}.

Section HomeScreen.

Context {num : Type} `{JSNumber num} `{JSMinMax num}.
Local Open Scope js_scope.

(** The size of the window, [Dimensions.get("window")]. *)
Variables screenWidth screenHeight : num.

Definition MARGIN : num := lit 40.
Definition RAIL_WIDTH : num := lit 20.

Definition availableWidth : num :=
  screenWidth - MARGIN * lit 2 - RAIL_WIDTH * lit 2.

Definition availableHeight : num :=
  screenHeight - MARGIN * lit 4 - RAIL_WIDTH * lit 2 - lit 100.

(** [(TABLE_WIDTH, TABLE_HEIGHT)] after the three assignments of the
    module. *)
Definition tableSize : num * num :=
  let TABLE_WIDTH := availableWidth in
  let TABLE_HEIGHT := availableWidth / lit 2 in
  let (TABLE_WIDTH, TABLE_HEIGHT) :=
    if TABLE_HEIGHT >? availableHeight
    then (availableHeight * lit 2, availableHeight)
    else (TABLE_WIDTH, TABLE_HEIGHT) in
  (Math_max TABLE_WIDTH (lit 300), Math_max TABLE_HEIGHT (lit 150)).

Definition TABLE_WIDTH : num := fst tableSize.
Definition TABLE_HEIGHT : num := snd tableSize.

Definition CUE_BALL_POSITION : Point num :=
  {| Point.x := TABLE_WIDTH * lit 0.25; Point.y := TABLE_HEIGHT * lit 0.5 |}.

(** The request [handleShotChange] sends to the simulator. *)
Definition request (force angle : num) : PredictedPathParams num :=
  {| PredictedPathParams.x := Point.x CUE_BALL_POSITION;
     PredictedPathParams.y := Point.y CUE_BALL_POSITION;
     PredictedPathParams.angleInDegrees := angle;
     PredictedPathParams.force := force;
     PredictedPathParams.tableWidth := TABLE_WIDTH;
     PredictedPathParams.tableHeight := TABLE_HEIGHT;
     PredictedPathParams.maxBounces := Some 8 |}.

(** The state after [handleShotChange({ force, angle })]. *)
Definition handleShotChange (force angle : num) : State num :=
  if force >? lit 5 then
    let trajectory := getPredictedPath (request force angle) in
    let bounces := getBouncePoints trajectory None in
    {| shotData := (force, angle);
       predictionPath := trajectory;
       bounceCount := length bounces |}
  else
    {| shotData := (force, angle);
       predictionPath := [];
       bounceCount := 0 |}.

(** The screen gives [CueStick] its cue ball position and
    [handleShotChange] as [onShotChange]: the state after a touch at
    [(x, y)], and after the end of the gesture. *)
Definition touch (x y : num) : State num :=
  CueStick.updateCueStick CUE_BALL_POSITION handleShotChange x y.

Definition release : State num :=
  CueStick.onEnd handleShotChange.

(** What [PredictionLine] draws for a state. *)
Definition drawn (st : State num) : option (PredictionLine.Drawing num) :=
  PredictionLine.render (predictionPath st).

End HomeScreen.

End HomeScreen.

(** ** The callers: the earlier screen [unnamed/part_000] *)

Module HomeScreenV1.

Section HomeScreenV1.

Context {num : Type} `{JSNumber num} `{JSMinMax num}.
Local Open Scope js_scope.

Variables screenWidth screenHeight : num.

Definition MARGIN : num := lit 20.
Definition RAIL_WIDTH : num := lit 15.
Definition SAFE_AREA_TOP : num := lit 100.
Definition SAFE_AREA_BOTTOM : num := lit 100.
Definition DEBUG_HEIGHT : num := lit 80.

Definition availableWidth : num := screenWidth - MARGIN * lit 2.

Definition availableHeight : num :=
  screenHeight - SAFE_AREA_TOP - SAFE_AREA_BOTTOM - DEBUG_HEIGHT.

Definition maxTableWidth : num :=
  Math_min (availableWidth - RAIL_WIDTH * lit 2) (lit 350).

Definition maxTableHeight : num :=
  Math_min (availableHeight - RAIL_WIDTH * lit 2) (lit 200).

(** [(TABLE_WIDTH, TABLE_HEIGHT)] after the three assignments of the
    module. *)
Definition tableSize : num * num :=
  let TABLE_WIDTH := maxTableWidth in
  let TABLE_HEIGHT := maxTableWidth / lit 2 in
  let (TABLE_WIDTH, TABLE_HEIGHT) :=
    if TABLE_HEIGHT >? maxTableHeight
    then (maxTableHeight * lit 2, maxTableHeight)
    else (TABLE_WIDTH, TABLE_HEIGHT) in
  (Math_max (Math_min TABLE_WIDTH (lit 320)) (lit 280),
   Math_max (Math_min TABLE_HEIGHT (lit 160)) (lit 140)).

Definition TABLE_WIDTH : num := fst tableSize.
Definition TABLE_HEIGHT : num := snd tableSize.

Definition CUE_BALL_POSITION : Point num :=
  {| Point.x := TABLE_WIDTH * lit 0.25; Point.y := TABLE_HEIGHT * lit 0.5 |}.

(** The path [handleShotChange({ force, angle })] sets. *)
Definition handleShotChange (force angle : num) : list (Point num) :=
  if force >? lit 5 then
    getPredictedPath
      {| PredictedPathParams.x := Point.x CUE_BALL_POSITION;
         PredictedPathParams.y := Point.y CUE_BALL_POSITION;
         PredictedPathParams.angleInDegrees := angle;
         PredictedPathParams.force := force;
         PredictedPathParams.tableWidth := TABLE_WIDTH;
         PredictedPathParams.tableHeight := TABLE_HEIGHT;
         PredictedPathParams.maxBounces := Some 8 |}
  else [].

End HomeScreenV1.

End HomeScreenV1.

(** ** Views for the properties of the helpers and of the callers *)

(** The request [p] with another launch angle. *)
Definition withAngle {num} (p : PredictedPathParams num) (angleInDegrees : num)
    : PredictedPathParams num :=
  {| PredictedPathParams.x := PredictedPathParams.x p;
     PredictedPathParams.y := PredictedPathParams.y p;
     PredictedPathParams.angleInDegrees := angleInDegrees;
     PredictedPathParams.force := PredictedPathParams.force p;
     PredictedPathParams.tableWidth := PredictedPathParams.tableWidth p;
     PredictedPathParams.tableHeight := PredictedPathParams.tableHeight p;
     PredictedPathParams.maxBounces := PredictedPathParams.maxBounces p |}.

(** Each point of [l] is reached from the one before it by a positive
    multiple of the step [(dx, dy)]. *)
Fixpoint alongRay (dx dy : R) (l : list (Point R)) : Prop :=
  match l with
  | a :: (b :: _) as l' =>
      (exists k : R,
          (0 < k)%R
          /\ (Point.x b - Point.x a = k * dx)%R
          /\ (Point.y b - Point.y a = k * dy)%R)
      /\ alongRay dx dy l'
  | _ => True
  end.

(** The distance the ball can still cover from the state [s]: its step
    [speed * timeStep], summed over the friction updates to come. *)
Definition travelBudget (config : PhysicsConfig R) (s : Locals R) : R :=
  (speed s * timeStep config / (1 - friction config))%R.

(** The ball is farther from every wall than it can still travel. *)
Definition clearOfWalls (config : PhysicsConfig R) (tableWidth tableHeight : R)
    (s : Locals R) : Prop :=
  (ballRadius config + travelBudget config s < currentX s
   /\ currentX s < tableWidth - ballRadius config - travelBudget config s
   /\ ballRadius config + travelBudget config s < currentY s
   /\ currentY s < tableHeight - ballRadius config - travelBudget config s)%R.

(** A path on a line, in binary64, with steps 6, 6, 1 and 17. *)
Definition samplePath : list (Point float) :=
  [ {| Point.x := 0%float; Point.y := 0%float |};
    {| Point.x := 6%float; Point.y := 0%float |};
    {| Point.x := 12%float; Point.y := 0%float |};
    {| Point.x := 13%float; Point.y := 0%float |};
    {| Point.x := 30%float; Point.y := 0%float |} ].

(** The strongest shot the cue stick can ask for, in exact arithmetic, on the
    smallest table of the screen. *)
Definition fullShot : PredictedPathParams R :=
  {| PredictedPathParams.x := 75%R;
     PredictedPathParams.y := 75%R;
     PredictedPathParams.angleInDegrees := 0%R;
     PredictedPathParams.force := 100%R;
     PredictedPathParams.tableWidth := 300%R;
     PredictedPathParams.tableHeight := 150%R;
     PredictedPathParams.maxBounces := Some 8 |}.

(** A shot of force 50 from the middle of the same table, and a path with a
    right angle, in exact arithmetic. *)
Definition midShot : PredictedPathParams R :=
  {| PredictedPathParams.x := 75%R;
     PredictedPathParams.y := 75%R;
     PredictedPathParams.angleInDegrees := 30%R;
     PredictedPathParams.force := 50%R;
     PredictedPathParams.tableWidth := 300%R;
     PredictedPathParams.tableHeight := 150%R;
     PredictedPathParams.maxBounces := Some 8 |}.

Definition straightPath : list (Point R) :=
  [ {| Point.x := 0%R; Point.y := 0%R |};
    {| Point.x := 3%R; Point.y := 4%R |};
    {| Point.x := 9%R; Point.y := 12%R |};
    {| Point.x := 10.5%R; Point.y := 14%R |} ].

(** * Part II: properties *)

Unset Implicit Arguments.

(** The literals of the file denote the doubles JavaScript reads them as. *)
Lemma literals_binary64 :
  @lit float Float64 0.985 = 0.985%float
  /\ @lit float Float64 0.3 = 0.3%float
  /\ @lit float Float64 0.08 = 0.08%float
  /\ @lit float Float64 0.15 = 0.15%float
  /\ @lit float Float64 0.92 = 0.92%float
  /\ @lit float Float64 8 = 8%float
  /\ @lit float Float64 0 = 0%float.
Proof. repeat apply conj; vm_compute; reflexivity. Qed.

(** The remainder has the sign of the dividend and is NaN for an infinite
    dividend, as [%] is in JavaScript. *)
Lemma fmod_binary64 :
  Float64Ops.fmod 725.5%float 360%float = 5.5%float
  /\ Float64Ops.fmod (-10)%float 360%float = (-10)%float
  /\ Float64Ops.fmod 5.5%float (-2)%float = 1.5%float
  /\ Float64Ops.fmod 10%float infinity = 10%float
  /\ is_nan (Float64Ops.fmod infinity 360%float) = true
  /\ is_nan (Float64Ops.fmod 10%float 0%float) = true.
Proof. repeat apply conj; vm_compute; reflexivity. Qed.

(** The values ECMA-262 fixes for [Math.cos] and [Math.sin] at the
    arguments the examples use. *)
Lemma Math_fixed_values :
  @Math_cos float Float64 0%float = 1%float
  /\ @Math_sin float Float64 0%float = 0%float
  /\ is_nan (@Math_cos float Float64 infinity) = true
  /\ is_nan (@Math_sin float Float64 nan) = true.
Proof. repeat apply conj; vm_compute; reflexivity. Qed.

(** A run in binary64: a hard shot along +x runs into the point cap after
    bouncing off the right and the left wall; its points are on the surface
    and its speeds decrease. *)
Lemma binary64_bouncing_run :
  let p := shot 1000%float 0%float None in
  length (getPredictedPath p) = 300
  /\ bounceCount p = 2
  /\ contactPointsOf p
     = [ {| Point.x := 292%float; Point.y := 75%float |};
         {| Point.x := 8%float; Point.y := 75%float |} ]
  /\ forallb (onSurfaceb 8%float 300%float 150%float) (getPredictedPath p)
     = true
  /\ nonIncreasingb (stepSpeeds p) = true.
Proof. cbv zeta. repeat apply conj; vm_compute; reflexivity. Qed.

(** ** The loop: termination and invariants *)

Section LoopFacts.

Context {num : Type} `{JSNumber num}.
Variable config : PhysicsConfig num.
Variables tableWidth tableHeight : num.
Variable maxBounces : nat.

#[local] Abbreviation loopTest' := (loopTest config maxBounces).
#[local] Abbreviation advance' := (advance config tableWidth tableHeight).
#[local] Abbreviation collisionOf' := (collisionOf config tableWidth tableHeight).
#[local] Abbreviation stopped' := (stopped config).
#[local] Abbreviation whileLoop' :=
  (whileLoop config tableWidth tableHeight maxBounces).
#[local] Abbreviation while_exec' :=
  (while_exec config tableWidth tableHeight maxBounces).
#[local] Abbreviation iterations' :=
  (iterations config tableWidth tableHeight maxBounces).
#[local] Abbreviation recorded' := (recorded config tableWidth tableHeight).
#[local] Abbreviation contactPoints' :=
  (contactPoints config tableWidth tableHeight).
#[local] Abbreviation collisions' := (collisions config tableWidth tableHeight).

Lemma loopTest_true (s : Locals num) :
  loopTest' s = true <->
  bounces s < maxBounces /\ length (path s) < maxPoints config.
Proof.
  unfold loopTest. rewrite andb_true_iff, !Nat.ltb_lt. tauto.
Qed.

Lemma path_advance (s : Locals num) : path (advance' s) = path s.
Proof.
  unfold advance. now destruct (hasCollision (collisionOf' s)).
Qed.

Lemma bounces_advance (s : Locals num) :
  bounces (advance' s) =
  if hasCollision (collisionOf' s) then S (bounces s) else bounces s.
Proof.
  unfold advance. now destruct (hasCollision (collisionOf' s)).
Qed.

Lemma path_push (s : Locals num) : path (push s) = path s ++ [position s].
Proof. reflexivity. Qed.

Lemma bounces_push (s : Locals num) : bounces (push s) = bounces s.
Proof. reflexivity. Qed.

Lemma whileLoop_S (fuel : nat) (s : Locals num) :
  whileLoop' (S fuel) s =
  if loopTest' s then
    if stopped' (advance' s) then advance' s
    else whileLoop' fuel (push (advance' s))
  else s.
Proof. reflexivity. Qed.

Lemma iterations_S (fuel : nat) (s : Locals num) :
  iterations' (S fuel) s =
  if loopTest' s then
    s :: (if stopped' (advance' s) then []
          else iterations' fuel (push (advance' s)))
  else [].
Proof. reflexivity. Qed.

(** The fuel [maxPoints - path.length] covers the whole run: the function
    computes the state the loop is left with. *)
Lemma whileLoop_exec (fuel : nat) (s : Locals num) :
  maxPoints config - length (path s) <= fuel ->
  while_exec' s (whileLoop' fuel s).
Proof.
  revert s. induction fuel as [|fuel IH]; intros s Hfuel.
  - cbn [whileLoop]. apply exec_exit.
    destruct (loopTest' s) eqn:E; [|reflexivity].
    apply loopTest_true in E. lia.
  - rewrite whileLoop_S.
    destruct (loopTest' s) eqn:E; [|now apply exec_exit].
    destruct (stopped' (advance' s)) eqn:St; [now apply exec_break|].
    apply exec_continue; trivial. apply IH.
    apply loopTest_true in E.
    rewrite path_push, length_app, path_advance. simpl. lia.
Qed.

Lemma while_exec_deterministic (s t u : Locals num) :
  while_exec' s t -> while_exec' s u -> t = u.
Proof.
  intros Ht. revert u.
  induction Ht as [s E|s E St|s t E St Ht IH]; intros u Hu;
    inversion Hu; subst; try congruence.
  now apply IH.
Qed.

(** Every run of the loop is the one [whileLoop] computes with [maxPoints]
    units of fuel, or with any amount that covers the run. *)
Lemma while_exec_whileLoop (s t : Locals num) :
  while_exec' s t -> t = whileLoop' (maxPoints config) s.
Proof.
  intros Ht. apply (while_exec_deterministic s t _ Ht).
  apply whileLoop_exec. lia.
Qed.

Lemma whileLoop_fuel (fuel : nat) (s : Locals num) :
  maxPoints config - length (path s) <= fuel ->
  whileLoop' fuel s = whileLoop' (maxPoints config) s.
Proof.
  intros Hfuel. apply while_exec_whileLoop. now apply whileLoop_exec.
Qed.

Lemma recorded_cons (s : Locals num) (heads : list (Locals num)) :
  recorded' (s :: heads) =
  (if stopped' (advance' s) then [] else [position (advance' s)])
  ++ recorded' heads.
Proof. reflexivity. Qed.

Lemma collisions_cons (s : Locals num) (heads : list (Locals num)) :
  collisions' (s :: heads) =
  (if hasCollision (collisionOf' s) then 1 else 0) + collisions' heads.
Proof.
  unfold collisions. cbn [filter].
  now destruct (hasCollision (collisionOf' s)).
Qed.

(** The path the loop is left with: the path it is entered with, then the
    points its iterations push. *)
Lemma path_whileLoop (fuel : nat) (s : Locals num) :
  path (whileLoop' fuel s) = path s ++ recorded' (iterations' fuel s).
Proof.
  revert s. induction fuel as [|fuel IH]; intros s.
  - cbn [whileLoop iterations]. now rewrite app_nil_r.
  - rewrite whileLoop_S, iterations_S.
    destruct (loopTest' s); [|now rewrite app_nil_r].
    rewrite recorded_cons.
    destruct (stopped' (advance' s)) eqn:St.
    + now rewrite path_advance, app_nil_r.
    + rewrite IH, path_push, path_advance, <- app_assoc. reflexivity.
Qed.

Lemma bounces_whileLoop (fuel : nat) (s : Locals num) :
  bounces (whileLoop' fuel s) = bounces s + collisions' (iterations' fuel s).
Proof.
  revert s. induction fuel as [|fuel IH]; intros s.
  - cbn [whileLoop iterations]. unfold collisions. simpl. lia.
  - rewrite whileLoop_S, iterations_S.
    destruct (loopTest' s); [|unfold collisions; simpl; lia].
    rewrite collisions_cons.
    destruct (stopped' (advance' s)) eqn:St.
    + rewrite bounces_advance. unfold collisions at 1. simpl.
      destruct (hasCollision (collisionOf' s)); lia.
    + rewrite IH, bounces_push, bounces_advance.
      destruct (hasCollision (collisionOf' s)); lia.
Qed.

Lemma length_path_whileLoop (fuel : nat) (s : Locals num) :
  length (path (whileLoop' fuel s))
  <= Nat.max (length (path s)) (maxPoints config).
Proof.
  revert s. induction fuel as [|fuel IH]; intros s.
  - cbn [whileLoop]. lia.
  - rewrite whileLoop_S.
    destruct (loopTest' s) eqn:E; [|lia].
    apply loopTest_true in E.
    destruct (stopped' (advance' s)); [rewrite path_advance; lia|].
    specialize (IH (push (advance' s))).
    rewrite path_push, length_app, path_advance in IH. simpl in IH. lia.
Qed.

Lemma bounces_bound_whileLoop (fuel : nat) (s : Locals num) :
  bounces (whileLoop' fuel s) <= Nat.max (bounces s) maxBounces.
Proof.
  revert s. induction fuel as [|fuel IH]; intros s.
  - cbn [whileLoop]. lia.
  - rewrite whileLoop_S.
    destruct (loopTest' s) eqn:E; [|lia].
    apply loopTest_true in E.
    assert (Hb : bounces (advance' s) <= maxBounces).
    { rewrite bounces_advance. destruct (hasCollision (collisionOf' s)); lia. }
    destruct (stopped' (advance' s)); [lia|].
    specialize (IH (push (advance' s))).
    rewrite bounces_push in IH. lia.
Qed.

Lemma recorded_app (heads heads' : list (Locals num)) :
  recorded' (heads ++ heads') = recorded' heads ++ recorded' heads'.
Proof. unfold recorded. apply flat_map_app. Qed.

(** The path an iteration is entered with: the path the loop was entered
    with, then the points pushed by the iterations before it. *)
Lemma path_at_iteration (fuel : nat) (s sk : Locals num)
    (hs : list (Locals num)) :
  iterations' fuel s = hs ++ [sk] -> path sk = path s ++ recorded' hs.
Proof.
  revert s hs. induction fuel as [|fuel IH]; intros s hs E.
  - cbn [iterations] in E. now destruct hs.
  - rewrite iterations_S in E.
    destruct (loopTest' s); [|now destruct hs].
    destruct hs as [|h hs]; cbn [app] in E; injection E as -> E.
    + now rewrite app_nil_r.
    + rewrite recorded_cons.
      destruct (stopped' (advance' h)); [now destruct hs|].
      rewrite (IH _ _ E), path_push, path_advance, <- app_assoc. reflexivity.
Qed.

Lemma contactPoints_recorded (heads : list (Locals num)) (pt : Point num) :
  In pt (contactPoints' heads) -> In pt (recorded' heads).
Proof.
  unfold contactPoints, recorded. rewrite !in_flat_map.
  intros [s [Hs Hpt]]. exists s. split; [assumption|].
  cbv zeta in *.
  destruct (hasCollision (collisionOf' s)), (stopped' (advance' s));
    simpl in *; tauto.
Qed.

Lemma contactPoints_collisions (heads : list (Locals num)) :
  length (contactPoints' heads) <= collisions' heads.
Proof.
  induction heads as [|s heads IH]; [unfold collisions; simpl; lia|].
  rewrite collisions_cons. unfold contactPoints in *. cbn [flat_map].
  rewrite length_app.
  destruct (hasCollision (collisionOf' s)), (stopped' (advance' s));
    simpl; lia.
Qed.

End LoopFacts.

(** ** Runs of [getPredictedPath] *)

Section Runs.

Context {num : Type} `{JSNumber num}.
Local Open Scope js_scope.

Lemma path_finalLocals (p : PredictedPathParams num) :
  path (finalLocals p) =
  origin p ::
  recorded DEFAULT_CONFIG
    (PredictedPathParams.tableWidth p) (PredictedPathParams.tableHeight p)
    (iterations DEFAULT_CONFIG
       (PredictedPathParams.tableWidth p) (PredictedPathParams.tableHeight p)
       (maxBouncesOf p) (maxPoints DEFAULT_CONFIG) (initialLocals p)).
Proof. unfold finalLocals. now rewrite path_whileLoop. Qed.

(** The path of an accepted request: the origin, then the points pushed. *)
Lemma getPredictedPath_accepted (p : PredictedPathParams num) :
  rejected p = false ->
  getPredictedPath p =
  origin p ::
  recorded DEFAULT_CONFIG
    (PredictedPathParams.tableWidth p) (PredictedPathParams.tableHeight p)
    (iterationsOf p).
Proof.
  intros Hp. unfold getPredictedPath, iterationsOf. rewrite Hp.
  apply path_finalLocals.
Qed.

(** A request with [force > 0] and a finite angle passes the validation. *)
Lemma valid_not_rejected (p : PredictedPathParams num) :
  (lit 0 <? PredictedPathParams.force p) = true ->
  isFinite (PredictedPathParams.angleInDegrees p) = true ->
  rejected p = false.
Proof.
  intros Hf Ha. unfold rejected. now rewrite (lt_le_false _ _ Hf), Ha.
Qed.

Lemma bounceCount_collisions (p : PredictedPathParams num) :
  bounceCount p =
  collisions DEFAULT_CONFIG
    (PredictedPathParams.tableWidth p) (PredictedPathParams.tableHeight p)
    (iterationsOf p).
Proof.
  unfold bounceCount, iterationsOf, finalLocals.
  destruct (rejected p); [reflexivity|].
  now rewrite bounces_whileLoop.
Qed.

(** The loop of a call terminates, and [finalLocals] is the state it is left
    with. *)
Lemma finalLocals_exec (p : PredictedPathParams num) :
  while_exec DEFAULT_CONFIG
    (PredictedPathParams.tableWidth p) (PredictedPathParams.tableHeight p)
    (maxBouncesOf p) (initialLocals p) (finalLocals p).
Proof. unfold finalLocals. apply whileLoop_exec. lia. Qed.

(** A call whose last iteration stops returns the path that iteration was
    entered with. *)
Lemma getPredictedPath_stopped (p : PredictedPathParams num)
    (hs : list (Locals num)) (sk : Locals num) :
  iterationsOf p = hs ++ [sk] ->
  stopped DEFAULT_CONFIG
    (advance DEFAULT_CONFIG (PredictedPathParams.tableWidth p)
       (PredictedPathParams.tableHeight p) sk) = true ->
  getPredictedPath p = path sk.
Proof.
  intros E St.
  assert (Hp : rejected p = false).
  { destruct (rejected p) eqn:Hp; [|reflexivity].
    unfold iterationsOf in E. rewrite Hp in E. now destruct hs. }
  rewrite (getPredictedPath_accepted p Hp), E, recorded_app.
  unfold iterationsOf in E. rewrite Hp in E.
  rewrite (path_at_iteration _ _ _ _ _ _ _ _ E).
  rewrite recorded_cons, St. cbn [recorded flat_map app initialLocals path].
  now rewrite app_nil_r.
Qed.

Lemma collisionOf_checkWallCollisions (config : PhysicsConfig num)
    (tableWidth tableHeight : num) (s : Locals num) :
  collisionOf config tableWidth tableHeight s =
  checkWallCollisions (position s) (proposed config s)
    {| Velocity.vx := vx s; Velocity.vy := vy s |}
    tableWidth tableHeight (ballRadius config).
Proof. reflexivity. Qed.

Lemma hasCollision_checkWallCollisions (currentPos nextPos : Point num)
    (velocity : Velocity num) (tableWidth tableHeight ballRadius : num) :
  hasCollision
    (checkWallCollisions currentPos nextPos velocity tableWidth tableHeight
       ballRadius) =
  hitsLeft nextPos ballRadius || hitsRight nextPos ballRadius tableWidth
  || hitsTop nextPos ballRadius || hitsBottom nextPos ballRadius tableHeight.
Proof.
  unfold checkWallCollisions, hitsLeft, hitsRight, hitsTop, hitsBottom.
  destruct (Point.x nextPos - ballRadius <=? lit 0),
    (Point.x nextPos + ballRadius >=? tableWidth),
    (Point.y nextPos - ballRadius <=? lit 0),
    (Point.y nextPos + ballRadius >=? tableHeight); reflexivity.
Qed.

(** The position an iteration computes, in every arithmetic: each coordinate
    is a clamped one or the proposed one, which then has passed both tests
    of its axis. *)
Lemma advance_position (config : PhysicsConfig num)
    (tableWidth tableHeight : num) (s : Locals num) :
  let t := advance config tableWidth tableHeight s in
  let next := proposed config s in
  let r := ballRadius config in
  currentX t =
    (if hitsLeft next r then r
     else if hitsRight next r tableWidth then tableWidth - r
     else Point.x next)
  /\ currentY t =
       (if hitsTop next r then r
        else if hitsBottom next r tableHeight then tableHeight - r
        else Point.y next).
Proof.
  unfold advance, collisionOf, checkWallCollisions, proposed,
    hitsLeft, hitsRight, hitsTop, hitsBottom.
  cbn [Point.x Point.y].
  destruct (currentX s + vx s * timeStep config - ballRadius config <=? lit 0),
    (currentX s + vx s * timeStep config + ballRadius config >=? tableWidth),
    (currentY s + vy s * timeStep config - ballRadius config <=? lit 0),
    (currentY s + vy s * timeStep config + ballRadius config >=? tableHeight);
    split; reflexivity.
Qed.



(** The resolver changes the sign of a velocity component at most. *)
Lemma checkWallCollisions_abs (currentPos nextPos : Point num)
    (velocity : Velocity num) (tableWidth tableHeight ballRadius : num) :
  let r := checkWallCollisions currentPos nextPos velocity tableWidth
             tableHeight ballRadius in
  Math_abs (Velocity.vx (newVelocity r)) = Math_abs (Velocity.vx velocity)
  /\ Math_abs (Velocity.vy (newVelocity r)) = Math_abs (Velocity.vy velocity).
Proof.
  destruct velocity as [wx wy]. unfold checkWallCollisions.
  destruct (Point.x nextPos - ballRadius <=? lit 0),
    (Point.x nextPos + ballRadius >=? tableWidth),
    (Point.y nextPos - ballRadius <=? lit 0),
    (Point.y nextPos + ballRadius >=? tableHeight);
    cbn; rewrite ?abs_neg, ?abs_abs; split; reflexivity.
Qed.

End Runs.

(** ** The wall collision resolver *)

(** C1. [checkWallCollisions]: when none of the four boundary tests is true
    the proposed point and the velocity are returned unchanged and
    [hasCollision] is false.  When a horizontal test is true, x is clamped
    to [ballRadius] and vx set to [+|vx|] (left), or x is clamped to
    [tableWidth - ballRadius] and vx set to [-|vx|] (right); the left test
    is tried first and the right one is its [else if].  The top and bottom
    tests treat y and vy the same way, independently of x.  The magnitude of
    each velocity component is unchanged.  Both axes are clamped in the same
    call when a horizontal and a vertical test are true, as at
    [cornerNext]. *)
Theorem checkWallCollisions_contract :
  (forall (num : Type) (N : JSNumber num) (currentPos nextPos : Point num)
      (velocity : Velocity num) (tableWidth tableHeight ballRadius : num),
    let r := checkWallCollisions currentPos nextPos velocity tableWidth
               tableHeight ballRadius in
    let left := hitsLeft nextPos ballRadius in
    let right := hitsRight nextPos ballRadius tableWidth in
    let top := hitsTop nextPos ballRadius in
    let bottom := hitsBottom nextPos ballRadius tableHeight in
    (left || right || top || bottom = false ->
       r = {| hasCollision := false;
              collisionPoint := nextPos;
              newVelocity := velocity |})
    /\ hasCollision r = left || right || top || bottom
    /\ (left || right = true ->
          (left = true
           /\ Point.x (collisionPoint r) = ballRadius
           /\ Velocity.vx (newVelocity r) = Math_abs (Velocity.vx velocity))
          \/ (right = true
              /\ Point.x (collisionPoint r) = (tableWidth - ballRadius)%js
              /\ Velocity.vx (newVelocity r)
                 = (- Math_abs (Velocity.vx velocity))%js))
    /\ (left = true ->
          Point.x (collisionPoint r) = ballRadius
          /\ Velocity.vx (newVelocity r) = Math_abs (Velocity.vx velocity))
    /\ (left = false -> right = true ->
          Point.x (collisionPoint r) = (tableWidth - ballRadius)%js
          /\ Velocity.vx (newVelocity r) = (- Math_abs (Velocity.vx velocity))%js)
    /\ (left || right = false ->
          Point.x (collisionPoint r) = Point.x nextPos
          /\ Velocity.vx (newVelocity r) = Velocity.vx velocity)
    /\ (top || bottom = true ->
          (top = true
           /\ Point.y (collisionPoint r) = ballRadius
           /\ Velocity.vy (newVelocity r) = Math_abs (Velocity.vy velocity))
          \/ (bottom = true
              /\ Point.y (collisionPoint r) = (tableHeight - ballRadius)%js
              /\ Velocity.vy (newVelocity r)
                 = (- Math_abs (Velocity.vy velocity))%js))
    /\ (top = true ->
          Point.y (collisionPoint r) = ballRadius
          /\ Velocity.vy (newVelocity r) = Math_abs (Velocity.vy velocity))
    /\ (top = false -> bottom = true ->
          Point.y (collisionPoint r) = (tableHeight - ballRadius)%js
          /\ Velocity.vy (newVelocity r) = (- Math_abs (Velocity.vy velocity))%js)
    /\ (top || bottom = false ->
          Point.y (collisionPoint r) = Point.y nextPos
          /\ Velocity.vy (newVelocity r) = Velocity.vy velocity)
    /\ Math_abs (Velocity.vx (newVelocity r)) = Math_abs (Velocity.vx velocity)
    /\ Math_abs (Velocity.vy (newVelocity r)) = Math_abs (Velocity.vy velocity))
  /\ (hitsLeft cornerNext 8%float = true
      /\ hitsTop cornerNext 8%float = true
      /\ checkWallCollisions cornerCurrent cornerNext cornerVelocity
           300%float 150%float 8%float
         = {| hasCollision := true;
              collisionPoint := {| Point.x := 8%float; Point.y := 8%float |};
              newVelocity :=
                {| Velocity.vx := 25%float; Velocity.vy := 50%float |} |}).
Proof.
  split.
  - intros num N currentPos [nx ny] [wx wy] tableWidth tableHeight ballRadius.
    unfold checkWallCollisions, hitsLeft, hitsRight, hitsTop, hitsBottom.
    cbn [Point.x Point.y Velocity.vx Velocity.vy].
    destruct (nx - ballRadius <=? lit 0)%js, (nx + ballRadius >=? tableWidth)%js,
      (ny - ballRadius <=? lit 0)%js, (ny + ballRadius >=? tableHeight)%js;
      cbn; rewrite ?abs_neg, ?abs_abs;
      repeat match goal with |- _ /\ _ => split end;
      intros; try discriminate; try reflexivity;
      try (split; reflexivity);
      try (left; repeat split; reflexivity);
      try (right; repeat split; reflexivity).
  - refine (conj _ (conj _ _)); vm_compute; reflexivity.
Qed.

(** ** The trajectory simulator: validation and bounds *)

(** C2. A request with [force <= 0] or with an [angleInDegrees] that is not
    finite (NaN or an infinity) gets the empty path, whatever its other
    fields; [getPredictedPath] is a total function, no error is raised. *)
Theorem rejected_request_empty_path
    {num : Type} {N : JSNumber num} (p : PredictedPathParams num) :
  (PredictedPathParams.force p <=? lit 0)%js = true
  \/ isFinite (PredictedPathParams.angleInDegrees p) = false ->
  getPredictedPath p = [].
Proof.
  intros Hp. unfold getPredictedPath, rejected.
  destruct Hp as [Hf|Ha]; [rewrite Hf|rewrite Ha, orb_true_r]; reflexivity.
Qed.

Lemma rejected_request_empty_path_witness :
  getPredictedPath (shot 0%float 0%float (Some 8)) = []
  /\ getPredictedPath (shot (-5)%float 30%float None) = []
  /\ getPredictedPath (shot 50%float nan (Some 8)) = []
  /\ getPredictedPath (shot 50%float infinity (Some 8)) = []
  /\ getPredictedPath (shot 50%float neg_infinity (Some 8)) = [].
Proof.
  refine (conj _ (conj _ (conj _ (conj _ _))));
    apply rejected_request_empty_path;
    first [left; vm_compute; reflexivity | right; vm_compute; reflexivity].
Defined.

(** C3. A valid request ([force > 0], finite [angleInDegrees]) gets a
    non-empty path whose first element is the launch origin [(x, y)]. *)
Theorem valid_request_path_starts_at_origin
    {num : Type} {N : JSNumber num} (p : PredictedPathParams num) :
  (lit 0 <? PredictedPathParams.force p)%js = true ->
  isFinite (PredictedPathParams.angleInDegrees p) = true ->
  exists rest : list (Point num),
    getPredictedPath p
    = {| Point.x := PredictedPathParams.x p;
         Point.y := PredictedPathParams.y p |} :: rest.
Proof.
  intros Hf Ha.
  rewrite (getPredictedPath_accepted p (valid_not_rejected p Hf Ha)).
  eexists. reflexivity.
Qed.

Lemma valid_request_path_starts_at_origin_witness :
  exists rest : list (Point float),
    getPredictedPath (shot 50%float 0%float (Some 8))
    = {| Point.x := 75%float; Point.y := 75%float |} :: rest.
Proof.
  apply (valid_request_path_starts_at_origin (shot 50%float 0%float (Some 8)));
    vm_compute; reflexivity.
Defined.

(** C4. For every request the returned path has at most [maxPoints] = 300
    points, and at most [maxBounces] collision events are processed.  The
    contact points pushed are elements of the returned path, counted in its
    length, and there are no more of them than collision events. *)
Theorem path_length_and_bounce_bounds
    {num : Type} {N : JSNumber num} (p : PredictedPathParams num) :
  length (getPredictedPath p) <= maxPoints (@DEFAULT_CONFIG num N)
  /\ maxPoints (@DEFAULT_CONFIG num N) = 300
  /\ bounceCount p <= maxBouncesOf p
  /\ (forall pt : Point num,
        In pt (contactPointsOf p) -> In pt (getPredictedPath p))
  /\ length (contactPointsOf p) <= bounceCount p.
Proof.
  refine (conj _ (conj eq_refl (conj _ (conj _ _)))).
  - unfold getPredictedPath, finalLocals.
    destruct (rejected p); [simpl; lia|].
    etransitivity; [apply length_path_whileLoop|]. simpl. lia.
  - unfold bounceCount, finalLocals.
    destruct (rejected p); [lia|].
    etransitivity; [apply bounces_bound_whileLoop|]. simpl. lia.
  - intros pt Hpt. unfold contactPointsOf in Hpt.
    apply contactPoints_recorded in Hpt.
    destruct (rejected p) eqn:Hp.
    + unfold iterationsOf in Hpt. rewrite Hp in Hpt. destruct Hpt.
    + rewrite (getPredictedPath_accepted p Hp). now right.
  - rewrite bounceCount_collisions. apply contactPoints_collisions.
Qed.

(** C5. In an iteration whose speed after friction is below [minVelocity]
    the loop is left at once: the state it is left with is the one that
    iteration computed, and its path is the path the iteration was entered
    with.  The position computed in that iteration is not appended, and the
    last element of the path is the one appended before.  So a call whose
    last iteration finds the speed below [minVelocity] returns the path as it
    was when that iteration was entered. *)
Theorem slow_iteration_appends_nothing :
  (forall (num : Type) (N : JSNumber num) (config : PhysicsConfig num)
      (tableWidth tableHeight : num) (maxBounces fuel : nat)
      (s : Locals num) (d : Point num),
    loopTest config maxBounces s = true ->
    (speed (advance config tableWidth tableHeight s) <? minVelocity config)%js
    = true ->
    let t := advance config tableWidth tableHeight s in
    whileLoop config tableWidth tableHeight maxBounces (S fuel) s = t
    /\ while_exec config tableWidth tableHeight maxBounces s t
    /\ path t = path s
    /\ last (path t) d = last (path s) d)
  /\ (forall (num : Type) (N : JSNumber num) (p : PredictedPathParams num)
        (hs : list (Locals num)) (sk : Locals num),
      iterationsOf p = hs ++ [sk] ->
      (speed
         (advance DEFAULT_CONFIG (PredictedPathParams.tableWidth p)
            (PredictedPathParams.tableHeight p) sk)
       <? minVelocity DEFAULT_CONFIG)%js = true ->
      getPredictedPath p = path sk).
Proof.
  split.
  - intros num N config tableWidth tableHeight maxBounces fuel s d Ht Hs t.
    assert (Hp : path t = path s) by apply path_advance.
    refine (conj _ (conj _ (conj Hp _))).
    + subst t. rewrite whileLoop_S, Ht. unfold stopped. now rewrite Hs.
    + now apply exec_break.
    + now rewrite Hp.
  - intros num N p hs sk E Hs. now apply (getPredictedPath_stopped p hs).
Qed.

Lemma slow_iteration_appends_nothing_witness :
  (let s := initialLocals (shot 1%float 0%float (Some 8)) in
   path (whileLoop DEFAULT_CONFIG 300%float 150%float 8 300 s)
   = [ {| Point.x := 75%float; Point.y := 75%float |} ])
  /\ (let p := shot 50%float 0%float (Some 8) in
      let sk := last (iterationsOf p) (initialLocals p) in
      length (iterationsOf p) = 213
      /\ getPredictedPath p = path sk
      /\ length (getPredictedPath p) = 213).
Proof.
  destruct slow_iteration_appends_nothing as [HA HB]. split.
  - intros s.
    destruct (HA float Float64 DEFAULT_CONFIG 300%float 150%float
                8 299 s (position s)) as (E & _ & P & _);
      [vm_compute; reflexivity | vm_compute; reflexivity |].
    rewrite E, P. reflexivity.
  - intros p sk. refine (conj _ (conj _ _)).
    + vm_compute. reflexivity.
    + apply (HB float Float64 p (removelast (iterationsOf p)) sk);
        vm_compute; reflexivity.
    + vm_compute. reflexivity.
Defined.

(** ** The bounce budget *)

(** C6, counterexample: the valid request [shot 50 0 (Some 0)] gets the
    one-point path [[(75, 75)]]: the loop test [bounces < maxBounces] fails
    before the first iteration, while the speed is still 7.5 and the path
    holds one point of 300. *)
Lemma zero_bounce_budget_no_motion :
  let p := shot 50%float 0%float (Some 0) in
  ((lit 0 <? PredictedPathParams.force p)%js = true
   /\ isFinite (PredictedPathParams.angleInDegrees p) = true
   /\ PredictedPathParams.maxBounces p = Some 0)
  /\ getPredictedPath p = [ {| Point.x := 75%float; Point.y := 75%float |} ]
  /\ speed (finalLocals p) = 7.5%float
  /\ ~ motionUntilDecayOrCap p.
Proof.
  cbv zeta. refine (conj (conj _ (conj _ _)) (conj _ (conj _ _)));
    try (vm_compute; reflexivity).
  intros [_ [Hs | Hl]]; [vm_compute in Hs | vm_compute in Hl]; discriminate.
Qed.

(** C6, amended: a valid request with [maxBounces = 0] gets the path that
    holds the launch origin and nothing else; no iteration of the loop is
    executed and no collision is processed. *)
Theorem zero_bounce_budget_path
    {num : Type} {N : JSNumber num} (p : PredictedPathParams num) :
  (lit 0 <? PredictedPathParams.force p)%js = true ->
  isFinite (PredictedPathParams.angleInDegrees p) = true ->
  PredictedPathParams.maxBounces p = Some 0 ->
  getPredictedPath p = [ origin p ]
  /\ iterationsOf p = []
  /\ finalLocals p = initialLocals p
  /\ bounceCount p = 0.
Proof.
  intros Hf Ha Hb.
  pose proof (valid_not_rejected p Hf Ha) as Hp.
  assert (Hi : iterationsOf p = []).
  { unfold iterationsOf. rewrite Hp.
    change (maxPoints DEFAULT_CONFIG) with (S 299).
    rewrite iterations_S. unfold loopTest, maxBouncesOf. now rewrite Hb. }
  assert (Hl : finalLocals p = initialLocals p).
  { unfold finalLocals. change (maxPoints DEFAULT_CONFIG) with (S 299).
    rewrite whileLoop_S. unfold loopTest, maxBouncesOf. now rewrite Hb. }
  refine (conj _ (conj Hi (conj Hl _))).
  - rewrite (getPredictedPath_accepted p Hp), Hi. reflexivity.
  - unfold bounceCount. now rewrite Hp, Hl.
Qed.

Lemma zero_bounce_budget_path_witness :
  getPredictedPath (shot 50%float 0%float (Some 0))
  = [ {| Point.x := 75%float; Point.y := 75%float |} ].
Proof.
  apply (zero_bounce_budget_path (shot 50%float 0%float (Some 0)));
    vm_compute; reflexivity.
Defined.

(** C10. One iteration changes [bounces] in its collision branch only, and
    by one: the counter grows by one when the resolver reports a collision
    and not at all otherwise, also when the resolver clamps the x axis and
    the y axis in the same call; [push] leaves it alone.  At [cornerState]
    both axes are clamped and the counter goes from 0 to 1. *)
Theorem bounce_counter_steps_by_at_most_one :
  (forall (num : Type) (N : JSNumber num) (config : PhysicsConfig num)
      (tableWidth tableHeight : num) (s : Locals num),
    let t := advance config tableWidth tableHeight s in
    let next := proposed config s in
    bounces t =
      (if hasCollision (collisionOf config tableWidth tableHeight s)
       then S (bounces s) else bounces s)
    /\ bounces t <= S (bounces s)
    /\ bounces (push t) = bounces t
    /\ (hitsLeft next (ballRadius config)
        || hitsRight next (ballRadius config) tableWidth = true ->
        hitsTop next (ballRadius config)
        || hitsBottom next (ballRadius config) tableHeight = true ->
        bounces t = S (bounces s)))
  /\ (let next := proposed DEFAULT_CONFIG cornerState in
      hitsLeft next 8%float = true
      /\ hitsTop next 8%float = true
      /\ position (advance DEFAULT_CONFIG 300%float 150%float cornerState)
         = {| Point.x := 8%float; Point.y := 8%float |}
      /\ bounces cornerState = 0
      /\ bounces (advance DEFAULT_CONFIG 300%float 150%float cornerState) = 1).
Proof.
  split.
  - intros num N config tableWidth tableHeight s t next.
    assert (E : bounces t =
                if hasCollision (collisionOf config tableWidth tableHeight s)
                then S (bounces s) else bounces s) by apply bounces_advance.
    refine (conj E (conj _ (conj (bounces_push t) _))).
    + rewrite E.
      destruct (hasCollision (collisionOf config tableWidth tableHeight s)); lia.
    + intros Hx Hy. rewrite E, collisionOf_checkWallCollisions,
        hasCollision_checkWallCollisions.
      fold next. apply orb_true_iff in Hx. apply orb_true_iff in Hy.
      destruct Hx as [-> | ->], Hy as [-> | ->];
        now rewrite ?orb_true_r, ?orb_true_l.
  - cbv zeta. refine (conj _ (conj _ (conj _ (conj _ _))));
      vm_compute; reflexivity.
Qed.

(** ** Exact arithmetic: containment and decay *)

Section RealFacts.

Local Open Scope R_scope.

Lemma Rltb_true (a b : R) : RealOps.ltb a b = true <-> a < b.
Proof. unfold RealOps.ltb. destruct (Rlt_dec a b); split; intros; congruence. Qed.

Lemma Rltb_false (a b : R) : RealOps.ltb a b = false <-> b <= a.
Proof.
  unfold RealOps.ltb. destruct (Rlt_dec a b); split; intros; try congruence; lra.
Qed.

Lemma Rleb_true (a b : R) : RealOps.leb a b = true <-> a <= b.
Proof. unfold RealOps.leb. destruct (Rle_dec a b); split; intros; congruence. Qed.

Lemma Rleb_false (a b : R) : RealOps.leb a b = false <-> b < a.
Proof.
  unfold RealOps.leb. destruct (Rle_dec a b); split; intros; try congruence; lra.
Qed.

Lemma lit_real (q : Q) : @lit R Real q = Q2R q.
Proof. reflexivity. Qed.

Lemma ballRadius_real : ballRadius (@DEFAULT_CONFIG R Real) = 8.
Proof. cbn. unfold Q2R. simpl. lra. Qed.

(** Whatever the state, the position an iteration computes is on the
    surface of a table that is at least one ball wide and high. *)
Lemma advance_onSurface (config : PhysicsConfig R) (tableWidth tableHeight : R)
    (s : Locals R) :
  2 * ballRadius config <= tableWidth ->
  2 * ballRadius config <= tableHeight ->
  onSurface (ballRadius config) tableWidth tableHeight
    (position (advance config tableWidth tableHeight s)).
Proof.
  intros Hw Hh.
  destruct (advance_position config tableWidth tableHeight s) as [Ex Ey].
  unfold onSurface, position. cbn [Point.x Point.y]. rewrite Ex, Ey.
  unfold hitsLeft, hitsRight, hitsTop, hitsBottom, ge.
  cbn [add sub le lit Real].
  replace (Q2R 0) with 0 by (unfold Q2R; simpl; lra).
  set (next := proposed config s).
  split.
  - destruct (RealOps.leb (Point.x next - ballRadius config) 0) eqn:L;
      [lra | apply Rleb_false in L].
    destruct (RealOps.leb tableWidth (Point.x next + ballRadius config)) eqn:R0;
      [lra | apply Rleb_false in R0; lra].
  - destruct (RealOps.leb (Point.y next - ballRadius config) 0) eqn:T;
      [lra | apply Rleb_false in T].
    destruct (RealOps.leb tableHeight (Point.y next + ballRadius config)) eqn:B;
      [lra | apply Rleb_false in B; lra].
Qed.

Lemma recorded_onSurface (config : PhysicsConfig R) (tableWidth tableHeight : R)
    (heads : list (Locals R)) :
  2 * ballRadius config <= tableWidth ->
  2 * ballRadius config <= tableHeight ->
  Forall (onSurface (ballRadius config) tableWidth tableHeight)
    (recorded config tableWidth tableHeight heads).
Proof.
  intros Hw Hh. induction heads as [|s heads IH]; [constructor|].
  rewrite recorded_cons.
  destruct (stopped config (advance config tableWidth tableHeight s));
    [exact IH|].
  constructor; [now apply advance_onSurface | exact IH].
Qed.





Lemma speed_real (s : Locals R) :
  speed s = sqrt (vx s * vx s + vy s * vy s).
Proof. reflexivity. Qed.

Lemma speed_nonneg (s : Locals R) : 0 <= speed s.
Proof. rewrite speed_real. apply sqrt_pos. Qed.

Lemma speed_push (s : Locals R) : speed (push s) = speed s.
Proof. reflexivity. Qed.

Lemma sqrt_scale (a b k : R) :
  0 <= k ->
  sqrt (a * k * (a * k) + b * k * (b * k)) = sqrt (a * a + b * b) * k.
Proof.
  intros Hk.
  replace (a * k * (a * k) + b * k * (b * k)) with ((a * a + b * b) * (k * k))
    by ring.
  rewrite sqrt_mult; [|nra|nra]. now rewrite sqrt_square.
Qed.

Lemma sqrt_abs (a b : R) :
  sqrt (a * a + b * b) = sqrt (Rabs a * Rabs a + Rabs b * Rabs b).
Proof.
  f_equal. fold (Rsqr a) (Rsqr b) (Rsqr (Rabs a)) (Rsqr (Rabs b)).
  now rewrite <- !Rsqr_abs.
Qed.

(** The velocity after an iteration without a collision. *)
Lemma advance_free (config : PhysicsConfig R) (tableWidth tableHeight : R)
    (s : Locals R) :
  hasCollision (collisionOf config tableWidth tableHeight s) = false ->
  vx (advance config tableWidth tableHeight s) = vx s * friction config
  /\ vy (advance config tableWidth tableHeight s) = vy s * friction config.
Proof. intros Hc. unfold advance. rewrite Hc. split; reflexivity. Qed.

(** The velocity after an iteration with a collision. *)
Lemma advance_bounce (config : PhysicsConfig R) (tableWidth tableHeight : R)
    (s : Locals R) :
  0 <= friction config ->
  hasCollision (collisionOf config tableWidth tableHeight s) = true ->
  Rabs (vx (advance config tableWidth tableHeight s))
  = Rabs (vx s) * 0.92 * friction config
  /\ Rabs (vy (advance config tableWidth tableHeight s))
     = Rabs (vy s) * 0.92 * friction config.
Proof.
  intros Hf Hc. unfold advance. rewrite Hc.
  cbn [vx vy mul lit Real].
  replace (Q2R 0.92) with 0.92 by (unfold Q2R; simpl; lra).
  destruct (checkWallCollisions_abs (position s) (proposed config s)
              {| Velocity.vx := vx s; Velocity.vy := vy s |}
              tableWidth tableHeight (ballRadius config)) as [Hx Hy].
  rewrite <- collisionOf_checkWallCollisions in Hx, Hy.
  cbn [Math_abs Real Velocity.vx Velocity.vy] in Hx, Hy.
  rewrite !Rabs_mult, Hx, Hy.
  rewrite (Rabs_pos_eq 0.92) by lra.
  rewrite (Rabs_pos_eq (friction config)) by exact Hf.
  split; reflexivity.
Qed.

Lemma advance_speed_free (config : PhysicsConfig R) (tableWidth tableHeight : R)
    (s : Locals R) :
  0 <= friction config ->
  hasCollision (collisionOf config tableWidth tableHeight s) = false ->
  speed (advance config tableWidth tableHeight s) = speed s * friction config.
Proof.
  intros Hf Hc. destruct (advance_free config tableWidth tableHeight s Hc)
    as [Ex Ey].
  rewrite !speed_real, Ex, Ey. now apply sqrt_scale.
Qed.

Lemma advance_speed_bounce (config : PhysicsConfig R)
    (tableWidth tableHeight : R) (s : Locals R) :
  0 <= friction config ->
  hasCollision (collisionOf config tableWidth tableHeight s) = true ->
  speed (advance config tableWidth tableHeight s)
  = speed s * 0.92 * friction config.
Proof.
  intros Hf Hc.
  destruct (advance_bounce config tableWidth tableHeight s Hf Hc) as [Ex Ey].
  rewrite !speed_real.
  rewrite (sqrt_abs (vx (advance _ _ _ s))), Ex, Ey.
  rewrite (sqrt_abs (vx s)).
  replace (Rabs (vx s) * 0.92 * friction config)
    with (Rabs (vx s) * (0.92 * friction config)) by ring.
  replace (Rabs (vy s) * 0.92 * friction config)
    with (Rabs (vy s) * (0.92 * friction config)) by ring.
  rewrite sqrt_scale by nra. ring.
Qed.



Lemma friction_real : friction (@DEFAULT_CONFIG R Real) = 0.985.
Proof. cbn. unfold Q2R. simpl. lra. Qed.



End RealFacts.

(** ** The geometry helpers and their legacy versions *)

Section Helpers.

Local Open Scope R_scope.

Lemma two_PI_bounds : 6 < 2 * PI <= 8.
Proof. pose proof PI2_3_2. pose proof PI_4. lra. Qed.



Lemma normalizeAngle_real (a : R) :
  normalizeAngle a =
  if RealOps.ltb (RealOps.fmod a 360) 0 then RealOps.fmod a 360 + 360
  else RealOps.fmod a 360.
Proof.
  unfold normalizeAngle. cbn [rem lt add lit Real].
  replace (Q2R 360) with 360 by (unfold Q2R; simpl; lra).
  replace (Q2R 0) with 0 by (unfold Q2R; simpl; lra).
  reflexivity.
Qed.






Lemma fmod_range (a d : R) :
  0 < d ->
  (0 <= a -> 0 <= RealOps.fmod a d < d)
  /\ (a < 0 -> - d < RealOps.fmod a d <= 0)
  /\ exists k : Z, RealOps.fmod a d = a + IZR k * d.
Proof.
  intros Hd. unfold RealOps.fmod, RealOps.trunc.
  assert (Eq : a = (a / d) * d) by (field; lra).
  destruct (Rle_dec 0 (a / d)) as [Hq|Hq].
  - destruct (base_Int_part (a / d)) as [Hlo Hhi].
    set (z := Int_part (a / d)) in *.
    assert (Ha : 0 <= a) by (rewrite Eq; nra).
    repeat split; try nra.
    exists (- z)%Z. rewrite opp_IZR. lra.
  - destruct (base_Int_part (- (a / d))) as [Hlo Hhi].
    set (z := Int_part (- (a / d))) in *.
    assert (Ha : a < 0) by (rewrite Eq; nra).
    repeat split; try nra.
    exists z. lra.
Qed.

(** In binary64 the second loop of [normalizeAngleOld] does not terminate on
    an angle that subtracting [2 PI] leaves unchanged: an infinity, or a
    finite angle as large as 1e300.  [normalizeAngle] returns on both. *)
Lemma normalizeAngleOld_diverges (fuel : nat) :
  normalizeAngleOld fuel infinity = None
  /\ normalizeAngleOld fuel 1e300%float = None.
Proof.
  assert (Hinf : forall f, lowerAngle f infinity = None).
  { induction f as [|f IH]; [vm_compute; reflexivity|].
    rewrite <- IH. vm_compute. reflexivity. }
  assert (Hbig : forall f, lowerAngle f 1e300%float = None).
  { induction f as [|f IH]; [vm_compute; reflexivity|].
    rewrite <- IH. vm_compute. reflexivity. }
  unfold normalizeAngleOld. split.
  - replace (raiseAngle fuel infinity) with (Some infinity);
      [apply Hinf | destruct fuel; vm_compute; reflexivity].
  - replace (raiseAngle fuel 1e300%float) with (Some 1e300%float);
      [apply Hbig | destruct fuel; vm_compute; reflexivity].
Qed.




End Helpers.

(** ** The helpers and the callers in binary64

    The definitions of the helpers and of the callers evaluate on doubles: a
    sample path, the bouncing run of force 1000, two window sizes and a
    touch. *)
Lemma binary64_helpers_run :
  getSmoothedTrajectory samplePath None
  = [ {| Point.x := 0%float; Point.y := 0%float |};
      {| Point.x := 12%float; Point.y := 0%float |};
      {| Point.x := 30%float; Point.y := 0%float |} ]
  /\ getBouncePoints (getPredictedPath (shot 1000%float 0%float None)) None
     = contactPointsOf (shot 1000%float 0%float None)
  /\ length
       (getSmoothedTrajectory (getPredictedPath (shot 1000%float 0%float None))
          None) = 61
  /\ HomeScreen.tableSize 390%float 844%float = (300%float, 150%float)
  /\ HomeScreen.tableSize 1024%float 400%float = (300%float, 150%float)
  /\ HomeScreenV1.tableSize 390%float 844%float = (320%float, 160%float)
  /\ (let m :=
        CueStick.calculateCueMetrics
          {| Point.x := 75%float; Point.y := 75%float |} 200%float 95%float in
      CueStick.touchDistance m = 105%float
      /\ CueStick.pullDistance m = 85%float
      /\ CueStick.force m = 70.833333333333343%float
      /\ CueStick.angle m = 0%float)
  /\ (let st := HomeScreen.touch 390%float 844%float 200%float 95%float in
      length (HomeScreen.predictionPath st) = 237
      /\ HomeScreen.bounceCount st = 0)
  /\ HomeScreen.predictionPath
       (HomeScreen.touch 390%float 844%float 110%float 95%float) = [].
Proof. repeat apply conj; vm_compute; reflexivity. Qed.

(** ** The list helpers: [getSmoothedTrajectory] and [getBouncePoints] *)

Section ListFacts.

Context {A : Type}.

Lemma subseq_refl (l : list A) : subseq l l.
Proof. induction l; constructor; assumption. Qed.

Lemma subseq_length (sub l : list A) : subseq sub l -> length sub <= length l.
Proof. induction 1; simpl; lia. Qed.

End ListFacts.

Section ScanFacts.

Context {num : Type} `{JSNumber num}.
Local Open Scope js_scope.

Lemma item_app (pre l : list (Point num)) (k : nat) :
  item (pre ++ l) (length pre + k) = item l k.
Proof. unfold item. apply app_nth2_plus. Qed.

Lemma item_0 (a : Point num) (l : list (Point num)) : item (a :: l) 0 = a.
Proof. reflexivity. Qed.

(** The loop of [getSmoothedTrajectory] from index [length pre] on. *)
Lemma fold_smoothedStep (d : num) (rest pre smoothedPath : list (Point num))
    (lastAddedIndex : nat) :
  fst (fold_left (smoothedStep (pre ++ rest) d)
         (seq (length pre) (length rest)) (smoothedPath, lastAddedIndex))
  = smoothedPath
    ++ smoothedScan d (item (pre ++ rest) lastAddedIndex) rest.
Proof.
  revert pre smoothedPath lastAddedIndex.
  induction rest as [|p rest IH]; intros pre sm li.
  - simpl. now rewrite app_nil_r.
  - assert (E : pre ++ p :: rest = (pre ++ [p]) ++ rest)
      by now rewrite <- app_assoc.
    assert (Ep : item (pre ++ p :: rest) (length pre) = p).
    { rewrite <- (Nat.add_0_r (length pre)) at 1. now rewrite item_app. }
    assert (El : (length pre =? length (pre ++ p :: rest) - 1)%nat
                 = match rest with [] => true | _ => false end).
    { rewrite length_app. simpl. destruct rest; simpl.
      - apply Nat.eqb_eq. lia.
      - apply Nat.eqb_neq. lia. }
    cbn [length seq fold_left smoothedScan].
    unfold smoothedStep at 2. rewrite Ep, El.
    destruct ((calculateDistance (item (pre ++ p :: rest) li) p >=? d)
              || match rest with [] => true | _ => false end).
    + rewrite E.
      replace (S (length pre)) with (length (pre ++ [p]))
        by (rewrite length_app; simpl; lia).
      rewrite IH. rewrite <- E, Ep. now rewrite <- app_assoc.
    + rewrite E.
      replace (S (length pre)) with (length (pre ++ [p]))
        by (rewrite length_app; simpl; lia).
      now rewrite IH.
Qed.

(** [getSmoothedTrajectory] read along the list. *)
Lemma getSmoothedTrajectory_scan (path : list (Point num))
    (pointSpacing : option num) :
  getSmoothedTrajectory path pointSpacing =
  match path with
  | p0 :: (_ :: _ :: _) as rest =>
      p0 :: smoothedScan (pointSpacingOf pointSpacing) p0 rest
  | _ => path
  end.
Proof.
  unfold getSmoothedTrajectory.
  destruct path as [|p0 [|p1 [|p2 rest]]]; try reflexivity.
  change (length (p0 :: p1 :: p2 :: rest) <=? 2)%nat with false.
  cbv beta iota zeta.
  pose proof (fold_smoothedStep (pointSpacingOf pointSpacing)
                (p1 :: p2 :: rest) [p0] [p0] 0) as E.
  cbn [app length] in E. cbn [length Nat.sub].
  rewrite item_0. rewrite item_0 in E. exact E.
Qed.

Lemma smoothedScan_cons (d : num) (last0 p : Point num)
    (rest : list (Point num)) :
  smoothedScan d last0 (p :: rest) =
  if (calculateDistance last0 p >=? d)
     || match rest with [] => true | _ => false end
  then p :: smoothedScan d p rest
  else smoothedScan d last0 rest.
Proof. reflexivity. Qed.

Lemma smoothedScan_subseq (d : num) (rest : list (Point num)) (last : Point num) :
  subseq (smoothedScan d last rest) rest.
Proof.
  revert last. induction rest as [|p rest IH]; intros last; simpl.
  - constructor.
  - destruct (_ || _); constructor; apply IH.
Qed.

Lemma smoothedScan_last (d : num) (rest : list (Point num))
    (last0 dflt : Point num) :
  rest <> [] ->
  smoothedScan d last0 rest <> []
  /\ last (smoothedScan d last0 rest) dflt = last rest dflt.
Proof.
  revert last0. induction rest as [|p rest IH]; intros last0 Hne.
  - congruence.
  - destruct rest as [|q rest].
    + simpl. rewrite orb_true_r. split; [discriminate | reflexivity].
    + assert (Hq : q :: rest <> []) by discriminate.
      rewrite smoothedScan_cons, orb_false_r.
      destruct (calculateDistance last0 p >=? d).
      * destruct (IH p Hq) as [Hn Hl]. split; [discriminate|].
        change (last (p :: q :: rest) dflt) with (last (q :: rest) dflt).
        rewrite <- Hl.
        destruct (smoothedScan d p (q :: rest)) eqn:E; [congruence|reflexivity].
      * destruct (IH last0 Hq) as [Hn Hl]. split; [exact Hn|].
        change (last (p :: q :: rest) dflt) with (last (q :: rest) dflt).
        exact Hl.
Qed.

(** Between two kept points of which the second is not the final one. *)
Lemma smoothedScan_spacing (d : num) (rest : list (Point num))
    (last0 : Point num) (l1 l2 : list (Point num)) (a b : Point num) :
  last0 :: smoothedScan d last0 rest = l1 ++ a :: b :: l2 ->
  l2 <> [] ->
  (calculateDistance a b >=? d) = true.
Proof.
  revert last0 l1. induction rest as [|p rest IH]; intros last0 l1 E Hl2.
  - destruct l1 as [|x [|y l1]]; discriminate.
  - rewrite smoothedScan_cons in E.
    destruct (calculateDistance last0 p >=? d) eqn:Hd.
    + cbn [orb] in E. destruct l1 as [|x l1].
      * cbn [app] in E. injection E as <- <- E2. exact Hd.
      * cbn [app] in E. injection E as _ E. apply (IH p l1 E Hl2).
    + cbn [orb] in E. destruct rest as [|q rest].
      * cbn [smoothedScan] in E. destruct l1 as [|x [|y l1]].
        -- cbn [app] in E. injection E as _ _ E2. congruence.
        -- cbn [app] in E. injection E as _ E. discriminate.
        -- cbn [app] in E. injection E as _ _ E.
           destruct l1; discriminate.
      * apply (IH last0 l1 E Hl2).
Qed.

End ScanFacts.

Section MarkFacts.

Context {num : Type} `{JSNumber num}.
Local Open Scope js_scope.

Lemma markedScan_cons (marks : Point num -> Point num -> Point num -> bool)
    (a b c : Point num) (l : list (Point num)) :
  markedScan marks (a :: b :: c :: l) =
  (if marks a b c then [b] else []) ++ markedScan marks (b :: c :: l).
Proof. reflexivity. Qed.

(** A [for] loop over the inner indices that pushes [path[i]] when the test
    holds of [path[i - 1]], [path[i]] and [path[i + 1]], from index
    [length pre + 1] on. *)
Lemma fold_markStep (marks : Point num -> Point num -> Point num -> bool)
    (step : list (Point num) -> list (Point num) -> nat -> list (Point num))
    (l pre acc : list (Point num)) :
  (forall path acc i,
      step path acc i =
      if marks (item path (i - 1)) (item path i) (item path (i + 1))
      then acc ++ [item path i] else acc) ->
  fold_left (step (pre ++ l)) (seq (length pre + 1) (length l - 2)) acc
  = acc ++ markedScan marks l.
Proof.
  intros Hstep. revert pre acc.
  induction l as [|a l IH]; intros pre acc.
  - simpl. now rewrite app_nil_r.
  - destruct l as [|b [|c l]].
    + simpl. now rewrite app_nil_r.
    + simpl. now rewrite app_nil_r.
    + rewrite markedScan_cons.
      change (length (a :: b :: c :: l) - 2)%nat with (S (length l)).
      cbn [seq fold_left]. rewrite Hstep.
      replace (length pre + 1 - 1)%nat with (length pre + 0)%nat by lia.
      replace (length pre + 1 + 1)%nat with (length pre + 2)%nat by lia.
      rewrite !item_app. cbn [item nth].
      assert (E : pre ++ a :: b :: c :: l = (pre ++ [a]) ++ b :: c :: l)
        by now rewrite <- app_assoc.
      specialize (IH (pre ++ [a])).
      rewrite <- E in IH.
      replace (length (pre ++ [a]) + 1)%nat with (S (length pre + 1)) in IH
        by (rewrite length_app; simpl; lia).
      change (length (b :: c :: l) - 2)%nat with (length l - 0)%nat in IH.
      rewrite Nat.sub_0_r in IH.
      rewrite IH. destruct (marks a b c); [|reflexivity].
      now rewrite <- app_assoc.
Qed.

Lemma markedScan_interior (marks : Point num -> Point num -> Point num -> bool)
    (l : list (Point num)) :
  subseq (markedScan marks l) (removelast (tl l)).
Proof.
  induction l as [|a l IH]; [constructor|].
  destruct l as [|b [|c l]]; [constructor | constructor |].
  rewrite markedScan_cons.
  change (removelast (tl (a :: b :: c :: l)))
    with (b :: removelast (tl (b :: c :: l))).
  destruct (marks a b c); constructor; exact IH.
Qed.

Lemma markedScan_mono (m1 m2 : Point num -> Point num -> Point num -> bool)
    (l : list (Point num)) :
  (forall a b c, m1 a b c = true -> m2 a b c = true) ->
  subseq (markedScan m1 l) (markedScan m2 l).
Proof.
  intros Hm. induction l as [|a l IH]; [constructor|].
  destruct l as [|b [|c l]]; [constructor | constructor |].
  rewrite !markedScan_cons.
  destruct (m1 a b c) eqn:E1.
  - rewrite (Hm _ _ _ E1). apply subseq_keep. exact IH.
  - destruct (m2 a b c); [apply subseq_skip|]; exact IH.
Qed.

Lemma markedScan_none (marks : Point num -> Point num -> Point num -> bool)
    (l : list (Point num)) :
  (forall pre a b c post, l = pre ++ a :: b :: c :: post -> marks a b c = false) ->
  markedScan marks l = [].
Proof.
  induction l as [|a l IH]; intros Hm; [reflexivity|].
  destruct l as [|b [|c l]]; try reflexivity.
  rewrite markedScan_cons.
  rewrite (Hm [] a b c l eq_refl). cbn [app].
  apply IH. intros pre a' b' c' post E.
  apply (Hm (a :: pre) a' b' c' post). now rewrite E.
Qed.

(** [getBouncePoints] read along the list. *)
Lemma getBouncePoints_scan (path : list (Point num))
    (angleThreshold : option num) :
  getBouncePoints path angleThreshold =
  markedScan
    (fun a b c => angleDiffOf a b c >? angleThresholdOf angleThreshold) path.
Proof.
  unfold getBouncePoints.
  destruct (length path <? 3)%nat eqn:E.
  - apply Nat.ltb_lt in E.
    destruct path as [|a [|b [|c l]]]; try reflexivity. simpl in E. lia.
  - cbv zeta.
    apply (fold_markStep
             (fun a b c => angleDiffOf a b c >? angleThresholdOf angleThreshold)
             (fun path => bounceStep path (angleThresholdOf angleThreshold))
             path [] []).
    reflexivity.
Qed.

(** The bounce detection of [PredictionLine] read along the list. *)
Lemma bouncePoints_scan (path : list (Point num)) :
  PredictionLine.bouncePoints path = markedScan PredictionLine.turns path.
Proof.
  apply (fold_markStep PredictionLine.turns PredictionLine.bounceStep
           path [] []).
  reflexivity.
Qed.

End MarkFacts.

(** ** Exact arithmetic: angles *)

Section AngleFacts.

Local Open Scope R_scope.

Lemma cos_period_Z (x : R) (k : Z) : cos (x + 2 * IZR k * PI) = cos x.
Proof.
  destruct (Z_le_gt_dec 0 k) as [Hk | Hk].
  - rewrite <- (Z2Nat.id k Hk), <- INR_IZR_INZ. apply cos_period.
  - rewrite <- (cos_period (x + 2 * IZR k * PI) (Z.to_nat (- k))).
    f_equal. rewrite INR_IZR_INZ, Z2Nat.id by lia. rewrite opp_IZR. ring.
Qed.

Lemma sin_period_Z (x : R) (k : Z) : sin (x + 2 * IZR k * PI) = sin x.
Proof.
  destruct (Z_le_gt_dec 0 k) as [Hk | Hk].
  - rewrite <- (Z2Nat.id k Hk), <- INR_IZR_INZ. apply sin_period.
  - rewrite <- (sin_period (x + 2 * IZR k * PI) (Z.to_nat (- k))).
    f_equal. rewrite INR_IZR_INZ, Z2Nat.id by lia. rewrite opp_IZR. ring.
Qed.

Lemma cos_PI_sub (x : R) : cos (PI - x) = - cos x.
Proof. rewrite cos_minus, cos_PI, sin_PI. ring. Qed.

Lemma sin_PI_sub (x : R) : sin (PI - x) = sin x.
Proof. rewrite sin_minus, cos_PI, sin_PI. ring. Qed.

(** The launch velocity in exact arithmetic. *)
Lemma initialLocals_real (p : PredictedPathParams R) :
  let a := PredictedPathParams.angleInDegrees p * PI / 180 in
  vx (initialLocals p) = cos a * PredictedPathParams.force p * 0.15
  /\ vy (initialLocals p) = sin a * PredictedPathParams.force p * 0.15.
Proof.
  unfold initialLocals, DEFAULT_CONFIG.
  cbn [vx vy velocityScale mul div lit Math_cos Math_sin Math_PI Real].
  replace (Q2R 180) with 180 by (unfold Q2R; simpl; lra).
  replace (Q2R 0.15) with 0.15 by (unfold Q2R; simpl; lra).
  split; reflexivity.
Qed.

(** A request is simulated from its launch state, its table and its bounce
    budget only. *)
Lemma getPredictedPath_ext {num : Type} {N : JSNumber num}
    (p q : PredictedPathParams num) :
  rejected p = rejected q ->
  initialLocals p = initialLocals q ->
  PredictedPathParams.tableWidth p = PredictedPathParams.tableWidth q ->
  PredictedPathParams.tableHeight p = PredictedPathParams.tableHeight q ->
  maxBouncesOf p = maxBouncesOf q ->
  getPredictedPath p = getPredictedPath q.
Proof.
  intros Hr Hi Hw Hh Hb. unfold getPredictedPath, finalLocals.
  now rewrite Hr, Hi, Hw, Hh, Hb.
Qed.

Lemma initialLocals_eq (p q : PredictedPathParams R) :
  PredictedPathParams.x p = PredictedPathParams.x q ->
  PredictedPathParams.y p = PredictedPathParams.y q ->
  vx (initialLocals p) = vx (initialLocals q) ->
  vy (initialLocals p) = vy (initialLocals q) ->
  initialLocals p = initialLocals q.
Proof.
  unfold initialLocals. cbn [vx vy]. intros -> -> -> ->. reflexivity.
Qed.

Lemma normalizeAngle_shift (a : R) :
  exists k : Z, normalizeAngle a = a + IZR k * 360.
Proof.
  rewrite normalizeAngle_real.
  destruct (fmod_range a 360 ltac:(lra)) as (_ & _ & k & Hk).
  destruct (RealOps.ltb (RealOps.fmod a 360) 0).
  - exists (k + 1)%Z. rewrite Hk, plus_IZR. ring.
  - exists k. exact Hk.
Qed.

End AngleFacts.

(** X1: in exact arithmetic [degreesToRadians] and [radiansToDegrees] are
    inverse to each other, and the angle of [calculateAngleBetweenPoints],
    converted back to radians, is the angle of the legacy [calculateAngle]. *)
Theorem degrees_radians_round_trip :
  (forall a : R, radiansToDegrees (degreesToRadians a) = a)
  /\ (forall a : R, degreesToRadians (radiansToDegrees a) = a)
  /\ (forall p q : Point R,
        degreesToRadians (calculateAngleBetweenPoints p q) = calculateAngle p q).
Proof.
  assert (E : Q2R 180 = 180%R) by (unfold Q2R; simpl; lra).
  pose proof PI_neq0 as HPI.
  unfold degreesToRadians, radiansToDegrees, calculateAngleBetweenPoints,
    calculateAngle.
  cbn [mul div sub lit Math_PI Math_atan2 Real]. rewrite E.
  repeat apply conj; intros; field; exact HPI.
Qed.

(** X2: in exact arithmetic [calculateReflectionAngle] is an involution, and
    launching at the reflected angle mirrors the launch velocity the way the
    collision resolver mirrors a velocity: a horizontal wall negates [vy], a
    vertical wall negates [vx]. *)
Theorem calculateReflectionAngle_mirrors_launch :
  forall (p : PredictedPathParams R) (w : WallType),
    let a := PredictedPathParams.angleInDegrees p in
    let q := withAngle p (calculateReflectionAngle a w) in
    calculateReflectionAngle (calculateReflectionAngle a w) w = a
    /\ match w with
       | horizontal =>
           vx (initialLocals q) = vx (initialLocals p)
           /\ vy (initialLocals q) = (- vy (initialLocals p))%R
       | vertical =>
           vx (initialLocals q) = (- vx (initialLocals p))%R
           /\ vy (initialLocals q) = vy (initialLocals p)
       end.
Proof.
  intros p w a q.
  assert (E : Q2R 180 = 180%R) by (unfold Q2R; simpl; lra).
  destruct (initialLocals_real p) as [Hx Hy].
  destruct (initialLocals_real q) as [Hx' Hy'].
  cbv zeta in Hx, Hy, Hx', Hy'. rewrite Hx, Hy, Hx', Hy'.
  unfold q, withAngle, a.
  cbn [PredictedPathParams.angleInDegrees PredictedPathParams.force].
  destruct w; unfold calculateReflectionAngle; cbn [neg sub lit Real];
    rewrite ?E.
  - split; [ring|].
    replace ((- PredictedPathParams.angleInDegrees p) * PI / 180)%R
      with (- (PredictedPathParams.angleInDegrees p * PI / 180))%R by field.
    rewrite cos_neg, sin_neg. split; ring.
  - split; [ring|].
    replace ((180 - PredictedPathParams.angleInDegrees p) * PI / 180)%R
      with (PI - PredictedPathParams.angleInDegrees p * PI / 180)%R by field.
    rewrite cos_PI_sub, sin_PI_sub. split; ring.
Qed.

(** X3: in exact arithmetic the simulator reads the launch angle modulo 360
    degrees: normalising the angle of a request with [normalizeAngle] does
    not change the predicted path. *)
Theorem normalizeAngle_preserves_path :
  forall p : PredictedPathParams R,
    getPredictedPath
      (withAngle p (normalizeAngle (PredictedPathParams.angleInDegrees p)))
    = getPredictedPath p.
Proof.
  intros p.
  destruct (normalizeAngle_shift (PredictedPathParams.angleInDegrees p))
    as [k Hk].
  apply getPredictedPath_ext; try reflexivity.
  apply initialLocals_eq; try reflexivity.
  - destruct (initialLocals_real p) as [Hx _].
    destruct (initialLocals_real
                (withAngle p
                   (normalizeAngle (PredictedPathParams.angleInDegrees p))))
      as [Hx' _].
    cbv zeta in Hx, Hx'. rewrite Hx, Hx'.
    unfold withAngle.
    cbn [PredictedPathParams.angleInDegrees PredictedPathParams.force].
    rewrite Hk.
    replace ((PredictedPathParams.angleInDegrees p + IZR k * 360) * PI / 180)%R
      with (PredictedPathParams.angleInDegrees p * PI / 180
            + 2 * IZR k * PI)%R by field.
    now rewrite cos_period_Z.
  - destruct (initialLocals_real p) as [_ Hy].
    destruct (initialLocals_real
                (withAngle p
                   (normalizeAngle (PredictedPathParams.angleInDegrees p))))
      as [_ Hy'].
    cbv zeta in Hy, Hy'. rewrite Hy, Hy'.
    unfold withAngle.
    cbn [PredictedPathParams.angleInDegrees PredictedPathParams.force].
    rewrite Hk.
    replace ((PredictedPathParams.angleInDegrees p + IZR k * 360) * PI / 180)%R
      with (PredictedPathParams.angleInDegrees p * PI / 180
            + 2 * IZR k * PI)%R by field.
    now rewrite sin_period_Z.
Qed.

(** X4: the legacy entry point [calculateTrajectory] takes its angle in
    radians and uses the default budget: in exact arithmetic, called with an
    angle converted by [degreesToRadians], it returns the path
    [getPredictedPath] returns for the angle in degrees and
    [maxBounces = 10]. *)
Theorem calculateTrajectory_degrees :
  forall (startPosition : Point R) (degrees force tableWidth tableHeight : R),
    calculateTrajectory startPosition (degreesToRadians degrees) force
      tableWidth tableHeight
    = getPredictedPath
        {| PredictedPathParams.x := Point.x startPosition;
           PredictedPathParams.y := Point.y startPosition;
           PredictedPathParams.angleInDegrees := degrees;
           PredictedPathParams.force := force;
           PredictedPathParams.tableWidth := tableWidth;
           PredictedPathParams.tableHeight := tableHeight;
           PredictedPathParams.maxBounces := Some 10 |}.
Proof.
  intros start d F w h. unfold calculateTrajectory, degreesToRadians.
  apply getPredictedPath_ext; try reflexivity.
  unfold initialLocals.
  cbn [PredictedPathParams.angleInDegrees PredictedPathParams.force
       PredictedPathParams.x PredictedPathParams.y].
  cbn [mul div lit Math_PI Real].
  replace (Q2R 180) with 180%R by (unfold Q2R; simpl; lra).
  replace (d * PI / 180 * 180 / PI * PI / 180)%R with (d * PI / 180)%R
    by (field; exact PI_neq0).
  reflexivity.
Qed.

(** ** The path helpers *)

Lemma length_removelast_tl {A : Type} (l : list A) :
  length (removelast (tl l)) = length l - 2.
Proof.
  destruct l as [|a l]; [reflexivity|]. cbn [tl length].
  induction l as [|b l IH]; [reflexivity|].
  destruct l as [|c l]; [reflexivity|].
  change (removelast (b :: c :: l)) with (b :: removelast (c :: l)).
  cbn [length] in *. lia.
Qed.

(** X5: [getSmoothedTrajectory] only drops points: whatever the path and the
    spacing, the result consists of points of the path in their order, and
    is never longer than the path. *)
Theorem getSmoothedTrajectory_subseq
    {num : Type} {N : JSNumber num} (path : list (Point num))
    (pointSpacing : option num) :
  subseq (getSmoothedTrajectory path pointSpacing) path
  /\ length (getSmoothedTrajectory path pointSpacing) <= length path.
Proof.
  assert (Hs : subseq (getSmoothedTrajectory path pointSpacing) path).
  { rewrite getSmoothedTrajectory_scan.
    destruct path as [|p0 [|p1 [|p2 rest]]]; try apply subseq_refl.
    apply subseq_keep, smoothedScan_subseq. }
  split; [exact Hs | apply subseq_length, Hs].
Qed.

(** X6: [getSmoothedTrajectory] keeps the first and the last point of every
    path, so the smoothed path is empty only when the path is. *)
Theorem getSmoothedTrajectory_endpoints
    {num : Type} {N : JSNumber num} (path : list (Point num))
    (pointSpacing : option num) (dflt : Point num) :
  hd dflt (getSmoothedTrajectory path pointSpacing) = hd dflt path
  /\ last (getSmoothedTrajectory path pointSpacing) dflt = last path dflt
  /\ (getSmoothedTrajectory path pointSpacing = [] <-> path = []).
Proof.
  rewrite getSmoothedTrajectory_scan.
  destruct path as [|p0 [|p1 [|p2 rest]]];
    try (split; [reflexivity | split; [reflexivity | tauto]]).
  split; [reflexivity|]. split; [|split; discriminate].
  destruct (smoothedScan_last (pointSpacingOf pointSpacing) (p1 :: p2 :: rest)
              p0 dflt ltac:(discriminate)) as [Hn Hl].
  change (last (p0 :: p1 :: p2 :: rest) dflt)
    with (last (p1 :: p2 :: rest) dflt).
  rewrite <- Hl.
  destruct (smoothedScan (pointSpacingOf pointSpacing) p0 (p1 :: p2 :: rest));
    [congruence | reflexivity].
Qed.

(** X7: in the result of [getSmoothedTrajectory] every point but the last one
    lies at least [pointSpacing] away from the point kept before it (the
    distance measured by [calculateDistance]); only the final point may be
    closer. *)
Theorem getSmoothedTrajectory_spacing
    {num : Type} {N : JSNumber num} (path : list (Point num))
    (pointSpacing : option num) (l1 l2 : list (Point num)) (a b : Point num) :
  getSmoothedTrajectory path pointSpacing = l1 ++ a :: b :: l2 ->
  l2 <> [] ->
  (calculateDistance a b >=? pointSpacingOf pointSpacing)%js = true.
Proof.
  rewrite getSmoothedTrajectory_scan. intros E Hl2.
  destruct path as [|p0 [|p1 [|p2 rest]]].
  - destruct l1; discriminate.
  - destruct l1 as [|? [|? ?]]; discriminate.
  - destruct l1 as [|? [|? [|? ?]]]; try discriminate.
    injection E as _ _ E. congruence.
  - exact (smoothedScan_spacing _ _ _ _ _ _ _ E Hl2).
Qed.

Lemma getSmoothedTrajectory_spacing_witness :
  getSmoothedTrajectory samplePath None
  = [ {| Point.x := 0%float; Point.y := 0%float |};
      {| Point.x := 12%float; Point.y := 0%float |};
      {| Point.x := 30%float; Point.y := 0%float |} ]
  /\ (calculateDistance {| Point.x := 0%float; Point.y := 0%float |}
                        {| Point.x := 12%float; Point.y := 0%float |}
      >=? pointSpacingOf None)%js = true.
Proof.
  refine (conj _ _).
  - vm_compute. reflexivity.
  - apply (getSmoothedTrajectory_spacing samplePath None []
             [ {| Point.x := 30%float; Point.y := 0%float |} ]).
    + vm_compute. reflexivity.
    + discriminate.
Defined.

(** X8: [getBouncePoints] reports inner points only: whatever the path and
    the threshold, the result consists of points of the path without its
    first and its last point, in their order; so there are at most
    [path.length - 2] of them, and none for a path of fewer than three
    points. *)
Theorem getBouncePoints_interior
    {num : Type} {N : JSNumber num} (path : list (Point num))
    (angleThreshold : option num) :
  subseq (getBouncePoints path angleThreshold) (removelast (tl path))
  /\ length (getBouncePoints path angleThreshold) <= length path - 2
  /\ (length path < 3 -> getBouncePoints path angleThreshold = []).
Proof.
  assert (Hs : subseq (getBouncePoints path angleThreshold)
                 (removelast (tl path))).
  { rewrite getBouncePoints_scan. apply markedScan_interior. }
  split; [exact Hs|]. split.
  - rewrite <- length_removelast_tl. apply subseq_length, Hs.
  - intros Hl. apply subseq_length in Hs.
    rewrite length_removelast_tl in Hs.
    destruct (getBouncePoints path angleThreshold); [reflexivity|].
    simpl in Hs. lia.
Qed.

(** ** The simulator: why a run ends *)

Section ExitFacts.

Context {num : Type} `{JSNumber num}.

Lemma while_exec_exit (config : PhysicsConfig num) (tableWidth tableHeight : num)
    (maxBounces : nat) (s t : Locals num) :
  while_exec config tableWidth tableHeight maxBounces s t ->
  loopTest config maxBounces t = false \/ stopped config t = true.
Proof. induction 1; auto. Qed.

Lemma contactPoints_cons (config : PhysicsConfig num)
    (tableWidth tableHeight : num) (s : Locals num)
    (heads : list (Locals num)) :
  contactPoints config tableWidth tableHeight (s :: heads) =
  (if hasCollision (collisionOf config tableWidth tableHeight s)
      && negb (stopped config (advance config tableWidth tableHeight s))
   then [position (advance config tableWidth tableHeight s)] else [])
  ++ contactPoints config tableWidth tableHeight heads.
Proof. reflexivity. Qed.

Lemma collisions_contactPoints (config : PhysicsConfig num)
    (tableWidth tableHeight : num) (maxBounces fuel : nat) (s : Locals num) :
  collisions config tableWidth tableHeight
    (iterations config tableWidth tableHeight maxBounces fuel s)
  <= S (length
          (contactPoints config tableWidth tableHeight
             (iterations config tableWidth tableHeight maxBounces fuel s))).
Proof.
  revert s. induction fuel as [|fuel IH]; intros s.
  - cbn [iterations]. unfold collisions. simpl. lia.
  - rewrite iterations_S.
    destruct (loopTest config maxBounces s); [|unfold collisions; simpl; lia].
    rewrite collisions_cons, contactPoints_cons.
    destruct (stopped config (advance config tableWidth tableHeight s)).
    + rewrite andb_false_r. unfold collisions. simpl.
      destruct (hasCollision _); lia.
    + rewrite andb_true_r, length_app. specialize (IH
        (push (advance config tableWidth tableHeight s))).
      destruct (hasCollision _); simpl; lia.
Qed.

End ExitFacts.

(** X9: the loop of [getPredictedPath] is left for one of three reasons: the
    bounce budget is used up, the path holds [maxPoints] = 300 points, or the
    speed has fallen below [minVelocity]. *)
Theorem getPredictedPath_exit_reason
    {num : Type} {N : JSNumber num} (p : PredictedPathParams num) :
  rejected p = false ->
  bounceCount p = maxBouncesOf p
  \/ length (getPredictedPath p) = 300
  \/ stopped DEFAULT_CONFIG (finalLocals p) = true.
Proof.
  intros Hr. unfold bounceCount, getPredictedPath. rewrite Hr.
  destruct (while_exec_exit _ _ _ _ _ _ (finalLocals_exec p)) as [Ht | Hs];
    [|now right; right].
  assert (Hb : bounces (finalLocals p)
               <= Nat.max (bounces (initialLocals p)) (maxBouncesOf p))
    by apply bounces_bound_whileLoop.
  assert (Hl : length (path (finalLocals p))
               <= Nat.max (length (path (initialLocals p)))
                    (maxPoints DEFAULT_CONFIG))
    by apply length_path_whileLoop.
  unfold loopTest in Ht. apply andb_false_iff in Ht.
  change (maxPoints DEFAULT_CONFIG) with 300 in *.
  change (bounces (initialLocals p)) with 0 in Hb.
  change (length (path (initialLocals p))) with 1 in Hl.
  destruct Ht as [Ht | Ht]; apply Nat.ltb_ge in Ht; [left | right; left]; lia.
Qed.

Lemma getPredictedPath_exit_reason_witness :
  let p := shot 50%float 0%float (Some 8) in
  bounceCount p = maxBouncesOf p
  \/ length (getPredictedPath p) = 300
  \/ stopped DEFAULT_CONFIG (finalLocals p) = true.
Proof.
  apply (getPredictedPath_exit_reason (shot 50%float 0%float (Some 8))).
  vm_compute. reflexivity.
Defined.

(** X10: every wall collision a call processes is a point of its path, except
    possibly one: the collision of the iteration that stops the run.  The
    count of collisions exceeds the number of contact points on the path by
    at most one. *)
Theorem processed_collisions_on_path
    {num : Type} {N : JSNumber num} (p : PredictedPathParams num) :
  bounceCount p <= S (length (contactPointsOf p)).
Proof.
  rewrite bounceCount_collisions. unfold contactPointsOf, iterationsOf.
  destruct (rejected p).
  - unfold collisions. simpl. lia.
  - apply collisions_contactPoints.
Qed.

(** ** Exact arithmetic: how long a path can get *)

Section DecayFacts.

Local Open Scope R_scope.

Lemma minVelocity_real : minVelocity (@DEFAULT_CONFIG R Real) = 0.3.
Proof. unfold DEFAULT_CONFIG. cbn [minVelocity lit Real]. unfold Q2R. simpl. lra. Qed.

Lemma timeStep_real : timeStep (@DEFAULT_CONFIG R Real) = 0.08.
Proof. unfold DEFAULT_CONFIG. cbn [timeStep lit Real]. unfold Q2R. simpl. lra. Qed.

(** The launch speed is [force * velocityScale], whatever the angle. *)
Lemma launch_speed (p : PredictedPathParams R) :
  0 <= PredictedPathParams.force p ->
  speed (initialLocals p) = PredictedPathParams.force p * 0.15.
Proof.
  intros HF. rewrite speed_real.
  destruct (initialLocals_real p) as [Hx Hy]. cbv zeta in Hx, Hy.
  rewrite Hx, Hy.
  set (a := PredictedPathParams.angleInDegrees p * PI / 180).
  set (F := PredictedPathParams.force p) in *.
  replace (cos a * F * 0.15 * (cos a * F * 0.15)
           + sin a * F * 0.15 * (sin a * F * 0.15))
    with (cos a * (F * 0.15) * (cos a * (F * 0.15))
          + sin a * (F * 0.15) * (sin a * (F * 0.15))) by ring.
  rewrite sqrt_scale by lra.
  replace (cos a * cos a + sin a * sin a) with 1.
  - rewrite sqrt_1. ring.
  - pose proof (sin2_cos2 a) as E. unfold Rsqr in E. lra.
Qed.

Lemma advance_speed_friction (config : PhysicsConfig R)
    (tableWidth tableHeight : R) (s : Locals R) :
  0 <= friction config ->
  speed (advance config tableWidth tableHeight s) <= speed s * friction config.
Proof.
  intros Hf. pose proof (speed_nonneg s) as Hs.
  destruct (hasCollision (collisionOf config tableWidth tableHeight s)) eqn:E.
  - rewrite (advance_speed_bounce config tableWidth tableHeight s Hf E). nra.
  - rewrite (advance_speed_free config tableWidth tableHeight s Hf E). lra.
Qed.

(** A ball too slow to survive [n + 1] friction updates is pushed at most
    [n] times. *)
Lemma recorded_length_decay (config : PhysicsConfig R)
    (tableWidth tableHeight : R) (maxBounces : nat) :
  0 <= friction config ->
  forall (n fuel : nat) (s : Locals R),
    speed s * friction config ^ S n < minVelocity config ->
    (length
       (recorded config tableWidth tableHeight
          (iterations config tableWidth tableHeight maxBounces fuel s))
     <= n)%nat.
Proof.
  intros Hf. induction n as [|n IH]; intros fuel s Hs.
  - destruct fuel as [|fuel]; [simpl; lia|].
    rewrite iterations_S.
    destruct (loopTest config maxBounces s); [|simpl; lia].
    rewrite recorded_cons.
    assert (Hst : stopped config (advance config tableWidth tableHeight s)
                  = true).
    { unfold stopped. apply Rltb_true.
      pose proof (advance_speed_friction config tableWidth tableHeight s Hf)
        as Ha.
      change (friction config ^ 1) with (friction config * 1) in Hs.
      cbn [lt Real]. lra. }
    rewrite Hst. simpl. lia.
  - destruct fuel as [|fuel]; [simpl; lia|].
    rewrite iterations_S.
    destruct (loopTest config maxBounces s); [|simpl; lia].
    rewrite recorded_cons.
    destruct (stopped config (advance config tableWidth tableHeight s));
      [simpl; lia|].
    rewrite length_app. cbn [length].
    assert (Hn : (length
              (recorded config tableWidth tableHeight
                 (iterations config tableWidth tableHeight maxBounces fuel
                    (push (advance config tableWidth tableHeight s)))) <= n)%nat).
    { apply IH. rewrite speed_push.
      pose proof (advance_speed_friction config tableWidth tableHeight s Hf)
        as Ha.
      pose proof (pow_le (friction config) (S n) Hf) as Hp.
      apply Rle_lt_trans
        with (speed s * friction config * friction config ^ S n);
        [apply Rmult_le_compat_r; assumption|].
      change (friction config ^ S (S n))
        with (friction config * friction config ^ S n) in Hs.
      lra. }
    lia.
Qed.

Lemma decay_259 : 100 * 0.15 * 0.985 ^ 259 < 0.3.
Proof.
  replace 0.985 with (985 * / 1000) by lra.
  rewrite Rpow_mult_distr, pow_inv, !pow_IZR.
  set (a := (985 ^ Z.of_nat 259)%Z). set (b := (1000 ^ Z.of_nat 259)%Z).
  assert (Hb : 0 < IZR b) by (apply IZR_lt; vm_compute; reflexivity).
  assert (Hab : 150 * IZR a < 3 * IZR b).
  { rewrite <- !mult_IZR. apply IZR_lt. vm_compute. reflexivity. }
  assert (Hz : 0 < / IZR b) by (apply Rinv_0_lt_compat; exact Hb).
  assert (E : IZR b * / IZR b = 1) by (apply Rinv_r; lra).
  clearbody a b. nra.
Qed.

End DecayFacts.

Section DecayBound.

Local Open Scope R_scope.

Lemma getPredictedPath_length_decay (p : PredictedPathParams R) (n : nat) :
  rejected p = false ->
  PredictedPathParams.force p * 0.15 * 0.985 ^ S n < 0.3 ->
  (length (getPredictedPath p) <= S n)%nat.
Proof.
  intros Hr Hd.
  rewrite (getPredictedPath_accepted p Hr). cbn [length].
  apply le_n_S. unfold iterationsOf. rewrite Hr.
  apply recorded_length_decay.
  - rewrite friction_real. lra.
  - rewrite friction_real, minVelocity_real, launch_speed; [exact Hd|].
    unfold rejected in Hr. apply orb_false_iff in Hr. destruct Hr as [Hr _].
    cbn [le lit Real] in Hr. apply Rleb_false in Hr.
    replace (Q2R 0) with 0 in Hr by (unfold Q2R; simpl; lra). lra.
Qed.

Lemma length_getPredictedPath {num : Type} {N : JSNumber num}
    (p : PredictedPathParams num) :
  (length (getPredictedPath p) <= 300)%nat.
Proof.
  unfold getPredictedPath. destruct (rejected p); [simpl; lia|].
  assert (Hl : (length (path (finalLocals p))
                <= Nat.max (length (path (initialLocals p)))
                     (maxPoints DEFAULT_CONFIG))%nat)
    by apply length_path_whileLoop.
  change (maxPoints DEFAULT_CONFIG) with 300%nat in Hl.
  change (length (path (initialLocals p))) with 1%nat in Hl. lia.
Qed.

End DecayBound.

(** X11: in exact arithmetic the launch speed is [force * 0.15] whatever the
    angle, and each iteration multiplies the speed by at most the friction
    0.985.  So a request whose launch speed, multiplied [n + 1] times by
    0.985, is below [minVelocity] = 0.3 gets a path of at most [n + 1]
    points. *)
Theorem path_length_decay_bound :
  forall (p : PredictedPathParams R) (n : nat),
    rejected p = false ->
    (PredictedPathParams.force p * 0.15 * 0.985 ^ S n < 0.3)%R ->
    length (getPredictedPath p) <= S n.
Proof. exact getPredictedPath_length_decay. Qed.

(** ** The screen and the cue stick, in exact arithmetic *)

Section ScreenFacts.

Local Open Scope R_scope.

Variables screenWidth screenHeight : R.

#[local] Abbreviation W := (HomeScreen.TABLE_WIDTH screenWidth screenHeight).
#[local] Abbreviation Ht := (HomeScreen.TABLE_HEIGHT screenWidth screenHeight).
#[local] Abbreviation aw := (HomeScreen.availableWidth screenWidth).
#[local] Abbreviation ah := (HomeScreen.availableHeight screenHeight).

Lemma availableWidth_real : aw = screenWidth - 120.
Proof.
  unfold HomeScreen.availableWidth, HomeScreen.MARGIN, HomeScreen.RAIL_WIDTH.
  cbn [sub mul lit Real]. unfold Q2R. simpl. lra.
Qed.

Lemma availableHeight_real : ah = screenHeight - 300.
Proof.
  unfold HomeScreen.availableHeight, HomeScreen.MARGIN, HomeScreen.RAIL_WIDTH.
  cbn [sub mul lit Real]. unfold Q2R. simpl. lra.
Qed.

Lemma tableSize_real :
  HomeScreen.tableSize screenWidth screenHeight =
  if Rlt_dec ah (aw / 2) then (Rmax (ah * 2) 300, Rmax ah 150)
  else (Rmax aw 300, Rmax (aw / 2) 150).
Proof.
  unfold HomeScreen.tableSize, gt. cbn [lt div mul lit Real Math_max Real_MinMax].
  replace (Q2R 2) with 2 by (unfold Q2R; simpl; lra).
  replace (Q2R 300) with 300 by (unfold Q2R; simpl; lra).
  replace (Q2R 150) with 150 by (unfold Q2R; simpl; lra).
  unfold RealOps.ltb. destruct (Rlt_dec ah (aw / 2)); reflexivity.
Qed.

Lemma table_size :
  W = 2 * Ht /\ 300 <= W /\ 150 <= Ht
  /\ (300 <= aw -> 150 <= ah -> W <= aw /\ Ht <= ah).
Proof.
  unfold HomeScreen.TABLE_WIDTH, HomeScreen.TABLE_HEIGHT.
  rewrite tableSize_real.
  destruct (Rlt_dec ah (aw / 2)); cbn [fst snd]; unfold Rmax;
    repeat destruct (Rle_dec _ _); repeat apply conj; intros; lra.
Qed.

Lemma cue_ball_real :
  HomeScreen.CUE_BALL_POSITION screenWidth screenHeight
  = {| Point.x := W * 0.25; Point.y := Ht * 0.5 |}.
Proof.
  unfold HomeScreen.CUE_BALL_POSITION. cbn [mul lit Real].
  replace (Q2R 0.25) with 0.25 by (unfold Q2R; simpl; lra).
  replace (Q2R 0.5) with 0.5 by (unfold Q2R; simpl; lra).
  reflexivity.
Qed.

Lemma cue_ball_onSurface :
  onSurface 8 W Ht (HomeScreen.CUE_BALL_POSITION screenWidth screenHeight).
Proof.
  rewrite cue_ball_real. destruct table_size as (_ & Hw & Hh & _).
  unfold onSurface. cbn [Point.x Point.y]. lra.
Qed.

Lemma handleShotChange_real (force angle : R) :
  HomeScreen.handleShotChange screenWidth screenHeight force angle =
  if Rlt_dec 5 force then
    {| HomeScreen.shotData := (force, angle);
       HomeScreen.predictionPath :=
         getPredictedPath
           (HomeScreen.request screenWidth screenHeight force angle);
       HomeScreen.bounceCount :=
         length
           (getBouncePoints
              (getPredictedPath
                 (HomeScreen.request screenWidth screenHeight force angle))
              None) |}
  else
    {| HomeScreen.shotData := (force, angle);
       HomeScreen.predictionPath := [];
       HomeScreen.bounceCount := 0 |}.
Proof.
  unfold HomeScreen.handleShotChange, gt. cbn [lt lit Real].
  replace (Q2R 5) with 5 by (unfold Q2R; simpl; lra).
  unfold RealOps.ltb. destruct (Rlt_dec 5 force); reflexivity.
Qed.

Lemma request_accepted (force angle : R) :
  0 < force ->
  rejected (HomeScreen.request screenWidth screenHeight force angle) = false.
Proof.
  intros HF. unfold rejected, HomeScreen.request.
  cbn [PredictedPathParams.force PredictedPathParams.angleInDegrees
       le lit isFinite Real negb orb].
  rewrite orb_false_r. apply Rleb_false.
  replace (Q2R 0) with 0 by (unfold Q2R; simpl; lra). exact HF.
Qed.

End ScreenFacts.

Section MotionFacts.

Local Open Scope R_scope.

Lemma rejected_real (p : PredictedPathParams R) :
  rejected p = false <-> 0 < PredictedPathParams.force p.
Proof.
  unfold rejected. cbn [le lit isFinite Real negb]. rewrite orb_false_r.
  replace (Q2R 0) with 0 by (unfold Q2R; simpl; lra). apply Rleb_false.
Qed.

(** The first iteration of a shot that is strong enough pushes a point. *)
Lemma getPredictedPath_moves (p : PredictedPathParams R) :
  rejected p = false ->
  (0 < maxBouncesOf p)%nat ->
  0.3 <= PredictedPathParams.force p * 0.15 * 0.92 * 0.985 ->
  (2 <= length (getPredictedPath p))%nat.
Proof.
  intros Hr Hb HF. rewrite (getPredictedPath_accepted p Hr). cbn [length].
  apply le_n_S. unfold iterationsOf. rewrite Hr.
  change (maxPoints DEFAULT_CONFIG) with (S 299).
  rewrite iterations_S.
  assert (Ht : loopTest DEFAULT_CONFIG (maxBouncesOf p) (initialLocals p)
               = true).
  { apply loopTest_true. split; [exact Hb | simpl; lia]. }
  rewrite Ht, recorded_cons.
  set (w := PredictedPathParams.tableWidth p).
  set (h := PredictedPathParams.tableHeight p).
  assert (Hs : stopped DEFAULT_CONFIG
                 (advance DEFAULT_CONFIG w h (initialLocals p)) = false).
  { unfold stopped. cbn [lt Real]. apply Rltb_false.
    rewrite minVelocity_real.
    apply rejected_real in Hr.
    assert (Hsp : speed (initialLocals p)
                  = PredictedPathParams.force p * 0.15)
      by (apply launch_speed; lra).
    assert (Hf : 0 <= friction (@DEFAULT_CONFIG R Real))
      by (rewrite friction_real; lra).
    destruct (hasCollision
                (collisionOf DEFAULT_CONFIG w h (initialLocals p))) eqn:E.
    - rewrite (advance_speed_bounce DEFAULT_CONFIG w h _ Hf E).
      rewrite Hsp, friction_real. lra.
    - rewrite (advance_speed_free DEFAULT_CONFIG w h _ Hf E).
      rewrite Hsp, friction_real. lra. }
  rewrite Hs, length_app. cbn [length]. lia.
Qed.

Lemma rejected_fullShot : rejected fullShot = false.
Proof. apply rejected_real. unfold fullShot. simpl. lra. Qed.

End MotionFacts.

Lemma path_length_decay_bound_witness :
  length (getPredictedPath fullShot) <= 259.
Proof.
  apply (path_length_decay_bound fullShot 258).
  - exact rejected_fullShot.
  - exact decay_259.
Defined.

(** X12: in exact arithmetic a request with a positive bounce budget whose
    launch speed [force * 0.15] is still at least [minVelocity] = 0.3 after a
    bounce and a friction update (factors 0.92 and 0.985) gets a path of at
    least two points: the ball moves. *)
Theorem strong_shot_moves :
  forall p : PredictedPathParams R,
    rejected p = false ->
    0 < maxBouncesOf p ->
    (0.3 <= PredictedPathParams.force p * 0.15 * 0.92 * 0.985)%R ->
    2 <= length (getPredictedPath p).
Proof. exact getPredictedPath_moves. Qed.

Lemma strong_shot_moves_witness : 2 <= length (getPredictedPath fullShot).
Proof.
  apply (strong_shot_moves fullShot).
  - exact rejected_fullShot.
  - unfold maxBouncesOf, fullShot. simpl. lia.
  - unfold fullShot. simpl. lra.
Defined.

(** ** Exact arithmetic: the path helpers *)

Section PathFacts.

Local Open Scope R_scope.

Lemma calculateDistance_nonneg (a b : Point R) : 0 <= calculateDistance a b.
Proof. unfold calculateDistance. cbn [Math_sqrt Real]. apply sqrt_pos. Qed.

Lemma smoothedScan_all (d : R) (rest : list (Point R)) (last0 : Point R) :
  d <= 0 -> smoothedScan d last0 rest = rest.
Proof.
  intros Hd. revert last0. induction rest as [|p rest IH]; intros last0.
  - reflexivity.
  - rewrite smoothedScan_cons.
    assert (E : (calculateDistance last0 p >=? d)%js = true).
    { unfold ge. cbn [le Real]. apply Rleb_true.
      pose proof (calculateDistance_nonneg last0 p). lra. }
    rewrite E. cbn [orb]. now rewrite IH.
Qed.

(** Scaling a vector by a positive factor does not change its angle. *)
Lemma atan2_scale (k y x : R) :
  0 < k -> RealOps.atan2 (k * y) (k * x) = RealOps.atan2 y x.
Proof.
  intros Hk. unfold RealOps.atan2.
  assert (Hq : x <> 0 -> k * y / (k * x) = y / x) by (intros; field; lra).
  destruct (Rlt_dec 0 x) as [Hx | Hx].
  - destruct (Rlt_dec 0 (k * x)) as [_ | Hn]; [|exfalso; apply Hn; nra].
    rewrite Hq by lra. reflexivity.
  - destruct (Rlt_dec 0 (k * x)) as [Hp | _]; [exfalso; nra|].
    destruct (Rlt_dec x 0) as [Hx' | Hx'].
    + destruct (Rlt_dec (k * x) 0) as [_ | Hn]; [|exfalso; apply Hn; nra].
      rewrite Hq by lra.
      destruct (Rlt_dec y 0) as [Hy | Hy].
      * destruct (Rlt_dec (k * y) 0) as [_ | Hn]; [|exfalso; apply Hn; nra].
        reflexivity.
      * destruct (Rlt_dec (k * y) 0) as [Hp | _]; [exfalso; nra|].
        reflexivity.
    + destruct (Rlt_dec (k * x) 0) as [Hp | _]; [exfalso; nra|].
      destruct (Rlt_dec 0 y) as [Hy | Hy].
      * destruct (Rlt_dec 0 (k * y)) as [_ | Hn]; [|exfalso; apply Hn; nra].
        reflexivity.
      * destruct (Rlt_dec 0 (k * y)) as [Hp | _]; [exfalso; nra|].
        destruct (Rlt_dec y 0) as [Hy' | Hy'].
        -- destruct (Rlt_dec (k * y) 0) as [_ | Hn];
             [|exfalso; apply Hn; nra].
           reflexivity.
        -- destruct (Rlt_dec (k * y) 0) as [Hp | _]; [exfalso; nra|].
           reflexivity.
Qed.

Lemma calculateAngleBetweenPoints_real (a b : Point R) :
  calculateAngleBetweenPoints a b
  = RealOps.atan2 (Point.y b - Point.y a) (Point.x b - Point.x a) * 180 / PI.
Proof.
  unfold calculateAngleBetweenPoints.
  cbn [sub mul div lit Math_atan2 Math_PI Real].
  replace (Q2R 180) with 180 by (unfold Q2R; simpl; lra). reflexivity.
Qed.

Lemma calculateAngleBetweenPoints_step (dx dy k : R) (a b : Point R) :
  0 < k ->
  Point.x b - Point.x a = k * dx ->
  Point.y b - Point.y a = k * dy ->
  calculateAngleBetweenPoints a b = RealOps.atan2 dy dx * 180 / PI.
Proof.
  intros Hk Hx Hy.
  rewrite calculateAngleBetweenPoints_real, Hx, Hy, atan2_scale by exact Hk.
  reflexivity.
Qed.

Lemma angleDiffOf_real (a b c : Point R) :
  angleDiffOf a b c =
  let d := Rabs (calculateAngleBetweenPoints a b
                 - calculateAngleBetweenPoints b c) in
  if Rlt_dec 180 d then 360 - d else d.
Proof.
  unfold angleDiffOf, gt. cbn [lt sub lit Math_abs Real].
  replace (Q2R 180) with 180 by (unfold Q2R; simpl; lra).
  replace (Q2R 360) with 360 by (unfold Q2R; simpl; lra).
  unfold RealOps.ltb. cbv zeta.
  destruct (Rlt_dec 180 _); reflexivity.
Qed.

Lemma alongRay_tl (dx dy : R) (a : Point R) (l : list (Point R)) :
  alongRay dx dy (a :: l) -> alongRay dx dy l.
Proof. destruct l as [|b l]; [trivial|]. intros [_ Hl]. exact Hl. Qed.

Lemma alongRay_app (dx dy : R) (pre l : list (Point R)) :
  alongRay dx dy (pre ++ l) -> alongRay dx dy l.
Proof.
  induction pre as [|a pre IH]; [trivial|].
  intros Hl. apply IH. exact (alongRay_tl dx dy a _ Hl).
Qed.

Lemma markedScan_alongRay (dx dy thr : R) (l : list (Point R)) :
  alongRay dx dy l -> 0 <= thr ->
  markedScan (fun a b c => (angleDiffOf a b c >? thr)%js) l = [].
Proof.
  intros Hl Hthr. apply markedScan_none. intros pre a b c post E.
  rewrite E in Hl. apply alongRay_app in Hl.
  destruct Hl as [(k1 & Hk1 & Hx1 & Hy1) [(k2 & Hk2 & Hx2 & Hy2) _]].
  rewrite angleDiffOf_real.
  rewrite (calculateAngleBetweenPoints_step dx dy k1 a b Hk1 Hx1 Hy1).
  rewrite (calculateAngleBetweenPoints_step dx dy k2 b c Hk2 Hx2 Hy2).
  cbv zeta. rewrite Rminus_diag, Rabs_R0.
  destruct (Rlt_dec 180 0); [lra|].
  unfold gt. cbn [lt Real]. apply Rltb_false. exact Hthr.
Qed.

End PathFacts.

(** X13: in exact arithmetic a [pointSpacing] that is zero or negative makes
    [getSmoothedTrajectory] return the path unchanged: no distance is below
    it. *)
Theorem getSmoothedTrajectory_nonpositive_spacing :
  forall (path : list (Point R)) (pointSpacing : R),
    (pointSpacing <= 0)%R ->
    getSmoothedTrajectory path (Some pointSpacing) = path.
Proof.
  intros path d Hd. rewrite getSmoothedTrajectory_scan.
  destruct path as [|p0 [|p1 [|p2 rest]]]; try reflexivity.
  cbn [pointSpacingOf]. now rewrite smoothedScan_all.
Qed.

Lemma getSmoothedTrajectory_nonpositive_spacing_witness :
  getSmoothedTrajectory straightPath (Some 0%R) = straightPath.
Proof.
  apply (getSmoothedTrajectory_nonpositive_spacing straightPath 0%R).
  apply Rle_refl.
Defined.

(** X14: in exact arithmetic [getBouncePoints] reports nothing on a path
    that runs along one direction, each point reached from the one before it
    by a positive multiple of the same step, whatever the lengths of the
    steps and whatever the threshold, as long as it is not negative. *)
Theorem getBouncePoints_straight :
  forall (dx dy : R) (path : list (Point R)) (angleThreshold : option R),
    alongRay dx dy path ->
    (0 <= angleThresholdOf angleThreshold)%R ->
    getBouncePoints path angleThreshold = [].
Proof.
  intros dx dy path thr Hl Hthr. rewrite getBouncePoints_scan.
  exact (markedScan_alongRay dx dy _ path Hl Hthr).
Qed.

Lemma getBouncePoints_straight_witness :
  getBouncePoints straightPath None = [].
Proof.
  apply (getBouncePoints_straight 3%R 4%R straightPath None).
  - unfold straightPath. cbn [alongRay Point.x Point.y].
    refine (conj _ (conj _ (conj _ I))).
    + exists 1%R. repeat apply conj; lra.
    + exists 2%R. repeat apply conj; lra.
    + exists 0.5%R. repeat apply conj; lra.
  - cbn [angleThresholdOf lit Real]. unfold Q2R. simpl. lra.
Defined.

(** ** Exact arithmetic: shots that stay clear of the walls *)

Section TravelFacts.

Local Open Scope R_scope.

Variable config : PhysicsConfig R.
Variables tableWidth tableHeight : R.
Hypothesis friction_range : 0 < friction config < 1.
Hypothesis timeStep_pos : 0 < timeStep config.

Lemma Rabs_le_between (x a : R) : Rabs x <= a -> - a <= x <= a.
Proof. unfold Rabs. destruct (Rcase_abs x); lra. Qed.

Lemma abs_le_speed (s : Locals R) :
  Rabs (vx s) <= speed s /\ Rabs (vy s) <= speed s.
Proof.
  rewrite speed_real. split.
  - rewrite <- (sqrt_Rsqr_abs (vx s)). apply sqrt_le_1_alt. unfold Rsqr. nra.
  - rewrite <- (sqrt_Rsqr_abs (vy s)). apply sqrt_le_1_alt. unfold Rsqr. nra.
Qed.

(** The step of an iteration is within the budget, and the budget left is
    the budget less the step. *)
Lemma travelBudget_step (s : Locals R) :
  let D := speed s * timeStep config in
  0 <= D /\ D <= travelBudget config s
  /\ travelBudget config s * friction config = travelBudget config s - D
  /\ Rabs (vx s * timeStep config) <= D
  /\ Rabs (vy s * timeStep config) <= D.
Proof.
  cbv zeta. unfold travelBudget.
  pose proof (speed_nonneg s) as Hs.
  destruct (abs_le_speed s) as [Hx Hy].
  assert (HD : 0 <= speed s * timeStep config) by nra.
  set (D := speed s * timeStep config) in *.
  assert (Hq : D / (1 - friction config) * (1 - friction config) = D)
    by (field; lra).
  assert (Hb : 0 <= D / (1 - friction config)).
  { apply Rmult_le_pos; [exact HD|]. apply Rlt_le, Rinv_0_lt_compat. lra. }
  repeat apply conj.
  - exact HD.
  - nra.
  - nra.
  - rewrite Rabs_mult, (Rabs_pos_eq (timeStep config)) by lra. unfold D. nra.
  - rewrite Rabs_mult, (Rabs_pos_eq (timeStep config)) by lra. unfold D. nra.
Qed.

Lemma clear_no_collision (s : Locals R) :
  clearOfWalls config tableWidth tableHeight s ->
  hasCollision (collisionOf config tableWidth tableHeight s) = false.
Proof.
  intros (Hl & Hr & Ht & Hb).
  destruct (travelBudget_step s) as (HD & HB & _ & Hx & Hy). cbv zeta in *.
  apply Rabs_le_between in Hx, Hy.
  rewrite collisionOf_checkWallCollisions, hasCollision_checkWallCollisions.
  unfold hitsLeft, hitsRight, hitsTop, hitsBottom, proposed, ge.
  cbn [Point.x Point.y add sub mul le lit Real].
  replace (Q2R 0) with 0 by (unfold Q2R; simpl; lra).
  assert (E1 : RealOps.leb
                 (currentX s + vx s * timeStep config - ballRadius config) 0
               = false) by (apply Rleb_false; lra).
  assert (E2 : RealOps.leb tableWidth
                 (currentX s + vx s * timeStep config + ballRadius config)
               = false) by (apply Rleb_false; lra).
  assert (E3 : RealOps.leb
                 (currentY s + vy s * timeStep config - ballRadius config) 0
               = false) by (apply Rleb_false; lra).
  assert (E4 : RealOps.leb tableHeight
                 (currentY s + vy s * timeStep config + ballRadius config)
               = false) by (apply Rleb_false; lra).
  rewrite E1, E2, E3, E4. reflexivity.
Qed.

Lemma advance_free_position (s : Locals R) :
  hasCollision (collisionOf config tableWidth tableHeight s) = false ->
  currentX (advance config tableWidth tableHeight s)
  = currentX s + vx s * timeStep config
  /\ currentY (advance config tableWidth tableHeight s)
     = currentY s + vy s * timeStep config.
Proof.
  intros E. unfold advance. rewrite E. split; reflexivity.
Qed.

Lemma clear_advance (s : Locals R) :
  clearOfWalls config tableWidth tableHeight s ->
  clearOfWalls config tableWidth tableHeight
    (push (advance config tableWidth tableHeight s)).
Proof.
  intros Hc. pose proof (clear_no_collision s Hc) as E.
  destruct Hc as (Hl & Hr & Ht & Hb).
  destruct (travelBudget_step s) as (HD & HB & Hf & Hx & Hy). cbv zeta in *.
  apply Rabs_le_between in Hx, Hy.
  destruct (advance_free_position s E) as [Ex Ey].
  assert (EB : travelBudget config
                 (push (advance config tableWidth tableHeight s))
               = travelBudget config s * friction config).
  { unfold travelBudget. rewrite speed_push.
    rewrite (advance_speed_free config tableWidth tableHeight s) by
      (try exact E; lra).
    field. lra. }
  unfold clearOfWalls. rewrite EB, Hf.
  change (currentX (push (advance config tableWidth tableHeight s)))
    with (currentX (advance config tableWidth tableHeight s)).
  change (currentY (push (advance config tableWidth tableHeight s)))
    with (currentY (advance config tableWidth tableHeight s)).
  rewrite Ex, Ey. repeat apply conj; lra.
Qed.

Lemma clear_collisions (maxBounces fuel : nat) (s : Locals R) :
  clearOfWalls config tableWidth tableHeight s ->
  collisions config tableWidth tableHeight
    (iterations config tableWidth tableHeight maxBounces fuel s) = 0%nat.
Proof.
  revert s. induction fuel as [|fuel IH]; intros s Hc; [reflexivity|].
  rewrite iterations_S.
  destruct (loopTest config maxBounces s); [|reflexivity].
  rewrite collisions_cons, (clear_no_collision s Hc).
  destruct (stopped config (advance config tableWidth tableHeight s));
    [reflexivity|].
  rewrite (IH _ (clear_advance s Hc)). reflexivity.
Qed.

(** The path of a run without collisions runs along the launch velocity. *)
Lemma free_run_alongRay (dx dy : R) (maxBounces fuel : nat) (s : Locals R)
    (c : R) :
  0 < c -> vx s = c * dx -> vy s = c * dy ->
  collisions config tableWidth tableHeight
    (iterations config tableWidth tableHeight maxBounces fuel s) = 0%nat ->
  alongRay dx dy
    (position s ::
     recorded config tableWidth tableHeight
       (iterations config tableWidth tableHeight maxBounces fuel s)).
Proof.
  revert s c. induction fuel as [|fuel IH]; intros s c Hc Hx Hy Hn;
    [exact I|].
  rewrite iterations_S in *.
  destruct (loopTest config maxBounces s); [|exact I].
  rewrite collisions_cons in Hn. rewrite recorded_cons.
  destruct (hasCollision (collisionOf config tableWidth tableHeight s)) eqn:E;
    [discriminate|].
  destruct (stopped config (advance config tableWidth tableHeight s));
    [exact I|].
  destruct (advance_free_position s E) as [Ex Ey].
  destruct (advance_free config tableWidth tableHeight s E) as [Evx Evy].
  cbn [app]. split.
  - exists (c * timeStep config). unfold position. cbn [Point.x Point.y].
    rewrite Ex, Ey, Hx, Hy. repeat apply conj; [nra | ring | ring].
  - apply (IH (push (advance config tableWidth tableHeight s))
             (c * friction config)).
    + nra.
    + change (vx (push (advance config tableWidth tableHeight s)))
        with (vx (advance config tableWidth tableHeight s)).
      rewrite Evx, Hx. ring.
    + change (vy (push (advance config tableWidth tableHeight s)))
        with (vy (advance config tableWidth tableHeight s)).
      rewrite Evy, Hy. ring.
    + simpl in Hn. exact Hn.
Qed.

End TravelFacts.

Section ClearShots.

Local Open Scope R_scope.

Lemma DEFAULT_CONFIG_ranges :
  0 < friction (@DEFAULT_CONFIG R Real) < 1
  /\ 0 < timeStep (@DEFAULT_CONFIG R Real).
Proof. rewrite friction_real, timeStep_real. lra. Qed.

Lemma travelBudget_launch (p : PredictedPathParams R) :
  0 <= PredictedPathParams.force p ->
  travelBudget DEFAULT_CONFIG (initialLocals p)
  = PredictedPathParams.force p * 0.8.
Proof.
  intros HF. unfold travelBudget.
  rewrite launch_speed, friction_real, timeStep_real by exact HF. lra.
Qed.

(** A shot launched farther from every wall than [ballRadius] plus what it
    can travel, [0.8 * force], processes no collision. *)
Lemma clear_shot_bounceCount (p : PredictedPathParams R) :
  rejected p = false ->
  8 + PredictedPathParams.force p * 0.8 < PredictedPathParams.x p
    < PredictedPathParams.tableWidth p - 8 - PredictedPathParams.force p * 0.8 ->
  8 + PredictedPathParams.force p * 0.8 < PredictedPathParams.y p
    < PredictedPathParams.tableHeight p - 8 - PredictedPathParams.force p * 0.8 ->
  bounceCount p = 0%nat.
Proof.
  intros Hr Hx Hy. rewrite bounceCount_collisions. unfold iterationsOf.
  rewrite Hr. destruct DEFAULT_CONFIG_ranges as [Hf Ht].
  apply clear_collisions; [exact Hf | exact Ht |].
  apply rejected_real in Hr.
  unfold clearOfWalls. rewrite travelBudget_launch, ballRadius_real by lra.
  change (currentX (initialLocals p)) with (PredictedPathParams.x p).
  change (currentY (initialLocals p)) with (PredictedPathParams.y p).
  lra.
Qed.

Lemma free_path_alongRay (p : PredictedPathParams R) :
  bounceCount p = 0%nat ->
  alongRay (vx (initialLocals p)) (vy (initialLocals p)) (getPredictedPath p).
Proof.
  intros Hb. destruct (rejected p) eqn:Hr.
  - unfold getPredictedPath. rewrite Hr. exact I.
  - rewrite (getPredictedPath_accepted p Hr).
    rewrite bounceCount_collisions in Hb. unfold iterationsOf in *.
    rewrite Hr in *. destruct DEFAULT_CONFIG_ranges as [Hf Ht].
    change (origin p) with (position (initialLocals p)).
    apply (free_run_alongRay DEFAULT_CONFIG _ _ Hf Ht _ _ _ _ _ 1);
      [lra | ring | ring | exact Hb].
Qed.

Lemma rejected_midShot : rejected midShot = false.
Proof. apply rejected_real. unfold midShot. simpl. lra. Qed.

Lemma bounceCount_midShot : bounceCount midShot = 0%nat.
Proof.
  apply clear_shot_bounceCount; [exact rejected_midShot | |];
    unfold midShot; simpl; lra.
Qed.

(** The turn that [getBouncePoints] compares with 30 degrees exceeds it only
    where the turn in radians exceeds 0.5. *)
Lemma bounce_mark_turns (a b c : Point R) :
  (angleDiffOf a b c >? angleThresholdOf None)%js = true ->
  PredictionLine.turns a b c = true.
Proof.
  unfold PredictionLine.turns. unfold gt. cbn [lt Real angleThresholdOf lit].
  replace (Q2R 30) with 30 by (unfold Q2R; simpl; lra).
  replace (Q2R 0.5) with 0.5 by (unfold Q2R; simpl; lra).
  rewrite !Rltb_true, angleDiffOf_real, !calculateAngleBetweenPoints_real.
  cbn [sub Math_abs Math_atan2 Real].
  set (A1 := RealOps.atan2 (Point.y b - Point.y a) (Point.x b - Point.x a)).
  set (A2 := RealOps.atan2 (Point.y c - Point.y b) (Point.x c - Point.x b)).
  replace (A1 * 180 / PI - A2 * 180 / PI) with ((A1 - A2) * (180 / PI))
    by (field; exact PI_neq0).
  pose proof two_PI_bounds as HPI.
  assert (Hk : 0 < 180 / PI) by (apply Rdiv_lt_0_compat; lra).
  rewrite Rabs_mult, (Rabs_pos_eq (180 / PI)) by lra.
  pose proof (Rabs_pos (A1 - A2)) as HD.
  set (D := Rabs (A1 - A2)) in *.
  assert (E : D * (180 / PI) * PI = D * 180) by (field; exact PI_neq0).
  cbv zeta. destruct (Rlt_dec 180 (D * (180 / PI))) as [Hw | Hw]; intros Hm.
  - assert (180 * PI < D * (180 / PI) * PI)
      by (apply Rmult_lt_compat_r; lra).
    lra.
  - assert (30 * PI < D * (180 / PI) * PI)
      by (apply Rmult_lt_compat_r; lra).
    lra.
Qed.

End ClearShots.

(** X15: in exact arithmetic a ball can travel at most [0.8 * force] (its
    step [speed * timeStep] summed over the friction updates).  A request
    launched farther than that plus [ballRadius] = 8 from all four walls
    never touches a wall: the call processes no collision. *)
Theorem short_shot_no_wall_contact :
  forall p : PredictedPathParams R,
    rejected p = false ->
    (8 + PredictedPathParams.force p * 0.8 < PredictedPathParams.x p
     < PredictedPathParams.tableWidth p - 8
       - PredictedPathParams.force p * 0.8)%R ->
    (8 + PredictedPathParams.force p * 0.8 < PredictedPathParams.y p
     < PredictedPathParams.tableHeight p - 8
       - PredictedPathParams.force p * 0.8)%R ->
    bounceCount p = 0
    /\ contactPointsOf p = [].
Proof.
  intros p Hr Hx Hy.
  pose proof (clear_shot_bounceCount p Hr Hx Hy) as Hb. split; [exact Hb|].
  pose proof (contactPoints_collisions DEFAULT_CONFIG
                (PredictedPathParams.tableWidth p)
                (PredictedPathParams.tableHeight p) (iterationsOf p)) as Hc.
  rewrite <- bounceCount_collisions, Hb in Hc. unfold contactPointsOf.
  destruct (contactPoints _ _ _ _); [reflexivity | simpl in Hc; lia].
Qed.

Lemma short_shot_no_wall_contact_witness :
  bounceCount midShot = 0 /\ contactPointsOf midShot = [].
Proof.
  apply (short_shot_no_wall_contact midShot).
  - exact rejected_midShot.
  - unfold midShot; simpl; lra.
  - unfold midShot; simpl; lra.
Defined.

(** X16: in exact arithmetic [getBouncePoints] reports no bounce on the path
    of a call that processed no wall collision, whatever the threshold, as
    long as it is not negative: the path runs along the launch velocity. *)
Theorem getBouncePoints_no_wall_contact :
  forall (p : PredictedPathParams R) (angleThreshold : option R),
    bounceCount p = 0 ->
    (0 <= angleThresholdOf angleThreshold)%R ->
    getBouncePoints (getPredictedPath p) angleThreshold = [].
Proof.
  intros p thr Hb Hthr. rewrite getBouncePoints_scan.
  exact (markedScan_alongRay _ _ _ _ (free_path_alongRay p Hb) Hthr).
Qed.

Lemma getBouncePoints_no_wall_contact_witness :
  getBouncePoints (getPredictedPath midShot) None = [].
Proof.
  apply (getBouncePoints_no_wall_contact midShot None).
  - exact bounceCount_midShot.
  - cbn [angleThresholdOf lit Real]. unfold Q2R. simpl. lra.
Defined.

(** X17: in exact arithmetic every bounce point [getBouncePoints] reports
    with its default threshold of 30 degrees is also one of the bounce
    points [PredictionLine] marks with its own test (a turn of more than 0.5
    radians): the reported points are among the marked ones, in order. *)
Theorem getBouncePoints_among_drawn :
  forall path : list (Point R),
    subseq (getBouncePoints path None) (PredictionLine.bouncePoints path)
    /\ length (getBouncePoints path None)
       <= length (PredictionLine.bouncePoints path).
Proof.
  intros path.
  assert (Hs : subseq (getBouncePoints path None)
                 (PredictionLine.bouncePoints path)).
  { rewrite getBouncePoints_scan, bouncePoints_scan.
    apply markedScan_mono. exact bounce_mark_turns. }
  split; [exact Hs | apply subseq_length, Hs].
Qed.

(** ** The cue stick and the screen *)

Section CueFacts.

Local Open Scope R_scope.

Lemma calculateCueMetrics_real (cueBallPosition : Point R) (touchX touchY : R) :
  let m := CueStick.calculateCueMetrics cueBallPosition touchX touchY in
  let deltaX := touchX - (Point.x cueBallPosition + 20) in
  let deltaY := touchY - (Point.y cueBallPosition + 20) in
  CueStick.touchDistance m = sqrt (deltaX * deltaX + deltaY * deltaY)
  /\ CueStick.pullDistance m
     = Rmax 0 (Rmin (CueStick.touchDistance m - 20) 120)
  /\ CueStick.force m = CueStick.pullDistance m / 120 * 100.
Proof.
  unfold CueStick.calculateCueMetrics, CueStick.RAIL_WIDTH,
    CueStick.MAX_PULL_DISTANCE, CueStick.MIN_PULL_DISTANCE.
  cbn [CueStick.touchDistance CueStick.pullDistance CueStick.force
       add sub mul div lit Math_sqrt Real Math_max Math_min Real_MinMax].
  replace (Q2R 20) with 20 by (unfold Q2R; simpl; lra).
  replace (Q2R 120) with 120 by (unfold Q2R; simpl; lra).
  replace (Q2R 100) with 100 by (unfold Q2R; simpl; lra).
  replace (Q2R 0) with 0 by (unfold Q2R; simpl; lra).
  repeat apply conj; reflexivity.
Qed.

Lemma cue_metrics (cueBallPosition : Point R) (touchX touchY : R) :
  let m := CueStick.calculateCueMetrics cueBallPosition touchX touchY in
  0 <= CueStick.touchDistance m
  /\ 0 <= CueStick.pullDistance m <= 120
  /\ 0 <= CueStick.force m <= 100
  /\ (CueStick.force m = 0 <-> CueStick.touchDistance m <= 20)
  /\ (CueStick.force m = 100 <-> 140 <= CueStick.touchDistance m)
  /\ (5 < CueStick.force m <-> 26 < CueStick.touchDistance m).
Proof.
  destruct (calculateCueMetrics_real cueBallPosition touchX touchY)
    as (Ht & Hp & Hf).
  cbv zeta in *. rewrite Hf, Hp.
  assert (H0 : 0 <= CueStick.touchDistance
                      (CueStick.calculateCueMetrics cueBallPosition
                         touchX touchY))
    by (rewrite Ht; apply sqrt_pos).
  set (td := CueStick.touchDistance _) in *.
  unfold Rmax, Rmin.
  destruct (Rle_dec (td - 20) 120); destruct (Rle_dec 0 _);
    repeat apply conj; try split; intros; lra.
Qed.

End CueFacts.

Section AppFacts.

Local Open Scope R_scope.

Variables screenWidth screenHeight : R.

#[local] Abbreviation request' :=
  (HomeScreen.request screenWidth screenHeight).
#[local] Abbreviation handleShotChange' :=
  (HomeScreen.handleShotChange screenWidth screenHeight).

Lemma request_origin (force angle : R) :
  origin (request' force angle)
  = HomeScreen.CUE_BALL_POSITION screenWidth screenHeight.
Proof.
  unfold origin, HomeScreen.request.
  cbn [PredictedPathParams.x PredictedPathParams.y].
  rewrite cue_ball_real. reflexivity.
Qed.

Lemma request_path_onSurface (force angle : R) :
  0 < force ->
  Forall
    (onSurface 8 (HomeScreen.TABLE_WIDTH screenWidth screenHeight)
       (HomeScreen.TABLE_HEIGHT screenWidth screenHeight))
    (getPredictedPath (request' force angle)).
Proof.
  intros HF.
  rewrite (getPredictedPath_accepted _
             (request_accepted screenWidth screenHeight force angle HF)).
  destruct (table_size screenWidth screenHeight) as (_ & Hw & Hh & _).
  constructor.
  - rewrite request_origin. apply cue_ball_onSurface.
  - rewrite <- ballRadius_real.
    apply (recorded_onSurface DEFAULT_CONFIG
             (HomeScreen.TABLE_WIDTH screenWidth screenHeight)
             (HomeScreen.TABLE_HEIGHT screenWidth screenHeight));
      rewrite ballRadius_real; lra.
Qed.

Lemma handleShotChange_onSurface (force angle : R) :
  Forall
    (onSurface 8 (HomeScreen.TABLE_WIDTH screenWidth screenHeight)
       (HomeScreen.TABLE_HEIGHT screenWidth screenHeight))
    (HomeScreen.predictionPath (handleShotChange' force angle)).
Proof.
  rewrite handleShotChange_real. destruct (Rlt_dec 5 force) as [HF | HF].
  - apply request_path_onSurface. lra.
  - constructor.
Qed.

Lemma handleShotChange_cleared (force angle : R) :
  force <= 5 ->
  HomeScreen.predictionPath (handleShotChange' force angle) = []
  /\ HomeScreen.bounceCount (handleShotChange' force angle) = 0%nat.
Proof.
  intros HF. rewrite handleShotChange_real.
  destruct (Rlt_dec 5 force); [lra|]. split; reflexivity.
Qed.

Lemma handleShotChange_shown (force angle : R) :
  5 < force ->
  let st := handleShotChange' force angle in
  hd_error (HomeScreen.predictionPath st)
  = Some (HomeScreen.CUE_BALL_POSITION screenWidth screenHeight)
  /\ (2 <= length (HomeScreen.predictionPath st) <= 300)%nat
  /\ (HomeScreen.bounceCount st
      <= length (HomeScreen.predictionPath st) - 2)%nat.
Proof.
  intros HF. cbv zeta. rewrite handleShotChange_real.
  destruct (Rlt_dec 5 force); [|lra].
  cbn [HomeScreen.predictionPath HomeScreen.bounceCount].
  assert (Hr : rejected (request' force angle) = false)
    by (apply request_accepted; lra).
  repeat apply conj.
  - rewrite (getPredictedPath_accepted _ Hr), request_origin. reflexivity.
  - apply getPredictedPath_moves;
      [exact Hr | unfold maxBouncesOf, HomeScreen.request; simpl; lia |].
    unfold HomeScreen.request. cbn [PredictedPathParams.force]. lra.
  - apply length_getPredictedPath.
  - rewrite <- length_removelast_tl. apply subseq_length.
    rewrite getBouncePoints_scan. apply markedScan_interior.
Qed.

Lemma render_None (path : list (Point R)) :
  PredictionLine.render path = None <-> (length path < 2)%nat.
Proof.
  unfold PredictionLine.render.
  destruct (length path <? 2)%nat eqn:E.
  - apply Nat.ltb_lt in E. tauto.
  - apply Nat.ltb_ge in E. split; [discriminate | lia].
Qed.

Lemma handleShotChange_short (force angle : R) :
  force <= 100 ->
  (length (HomeScreen.predictionPath (handleShotChange' force angle))
   <= 259)%nat.
Proof.
  intros HF. rewrite handleShotChange_real.
  destruct (Rlt_dec 5 force) as [H5 | H5]; [|simpl; lia].
  cbn [HomeScreen.predictionPath].
  apply (getPredictedPath_length_decay _ 258).
  - apply request_accepted. lra.
  - unfold HomeScreen.request. cbn [PredictedPathParams.force].
    pose proof decay_259 as Hd.
    assert (Hp : 0 <= 0.985 ^ 259) by (apply pow_le; lra).
    set (q := 0.985 ^ 259) in *. clearbody q.
    assert (force * (0.15 * q) <= 100 * (0.15 * q))
      by (apply Rmult_le_compat_r; lra).
    lra.
Qed.

End AppFacts.

(** X18: in exact arithmetic, for every touch, [calculateCueMetrics] returns
    a pull distance within [0, 120] and a force within [0, 100]; the force
    is 0 exactly up to a touch distance of 20 and 100 exactly from 140 on,
    and it exceeds 5, the threshold of the screen, exactly when the touch is
    more than 26 away from the ball. *)
Theorem cue_metrics_bounds :
  forall (cueBallPosition : Point R) (touchX touchY : R),
    let m := CueStick.calculateCueMetrics cueBallPosition touchX touchY in
    (0 <= CueStick.touchDistance m
     /\ 0 <= CueStick.pullDistance m <= 120
     /\ 0 <= CueStick.force m <= 100
     /\ (CueStick.force m = 0 <-> CueStick.touchDistance m <= 20)
     /\ (CueStick.force m = 100 <-> 140 <= CueStick.touchDistance m)
     /\ (5 < CueStick.force m <-> 26 < CueStick.touchDistance m))%R.
Proof. exact cue_metrics. Qed.

(** X19: in exact arithmetic, whatever the size of the window, the table of
    the screen is 2:1 and at least 300 x 150; when the window leaves room
    for that much, the table fits the room. *)
Theorem screen_table_size :
  forall screenWidth screenHeight : R,
    let w := HomeScreen.TABLE_WIDTH screenWidth screenHeight in
    let h := HomeScreen.TABLE_HEIGHT screenWidth screenHeight in
    (w = 2 * h /\ 300 <= w /\ 150 <= h
     /\ (300 <= HomeScreen.availableWidth screenWidth ->
         150 <= HomeScreen.availableHeight screenHeight ->
         w <= HomeScreen.availableWidth screenWidth
         /\ h <= HomeScreen.availableHeight screenHeight))%R.
Proof. exact table_size. Qed.

(** X20: in exact arithmetic, whatever the size of the window, the force
    and the angle, every point of the path the screen shows, the cue ball
    position it starts from included, lies on the playing surface of the
    screen's table: at least [ballRadius] = 8 away from every wall. *)
Theorem screen_path_on_surface :
  forall screenWidth screenHeight force angle : R,
    Forall
      (onSurface 8 (HomeScreen.TABLE_WIDTH screenWidth screenHeight)
         (HomeScreen.TABLE_HEIGHT screenWidth screenHeight))
      (HomeScreen.predictionPath
         (HomeScreen.handleShotChange screenWidth screenHeight force angle)).
Proof. exact handleShotChange_onSurface. Qed.

(** X21: in exact arithmetic [handleShotChange] clears the path and the
    bounce count for a force of at most 5; for a larger force the path
    starts at the cue ball position and has between 2 and 300 points, and
    the bounce count is at most the number of its inner points.  So
    [PredictionLine], which draws paths of two points or more, draws nothing
    exactly when the force is at most 5. *)
Theorem handleShotChange_path :
  forall screenWidth screenHeight force angle : R,
    let st := HomeScreen.handleShotChange screenWidth screenHeight force angle in
    ((force <= 5)%R ->
       HomeScreen.predictionPath st = [] /\ HomeScreen.bounceCount st = 0)
    /\ ((5 < force)%R ->
          hd_error (HomeScreen.predictionPath st)
          = Some (HomeScreen.CUE_BALL_POSITION screenWidth screenHeight)
          /\ 2 <= length (HomeScreen.predictionPath st) <= 300
          /\ HomeScreen.bounceCount st
             <= length (HomeScreen.predictionPath st) - 2)
    /\ (HomeScreen.drawn st = None <-> (force <= 5)%R).
Proof.
  intros sw sh F a st. split; [|split].
  - apply handleShotChange_cleared.
  - apply handleShotChange_shown.
  - unfold HomeScreen.drawn. rewrite render_None. split.
    + intros Hl. destruct (Rle_dec F 5) as [HF | HF]; [exact HF|].
      apply Rnot_le_lt in HF.
      destruct (handleShotChange_shown sw sh F a HF) as (_ & [H2 _] & _).
      fold st in H2. lia.
    + intros HF. destruct (handleShotChange_cleared sw sh F a HF) as [Hp _].
      fold st in Hp. rewrite Hp. simpl. lia.
Qed.

(** X22: in exact arithmetic a touch of the cue stick hands its force and
    angle to the screen; the screen shows a path exactly when the touch is
    more than 26 away from the ball, and that path has at most 259 points:
    a shot of the cue stick, whose force is at most 100, slows below
    [minVelocity] before the cap of 300 points is reached.  Ending the
    gesture clears the path. *)
Theorem touch_path :
  forall screenWidth screenHeight x y : R,
    let m :=
      CueStick.calculateCueMetrics
        (HomeScreen.CUE_BALL_POSITION screenWidth screenHeight) x y in
    let st := HomeScreen.touch screenWidth screenHeight x y in
    HomeScreen.shotData st = (CueStick.force m, CueStick.angle m)
    /\ ((CueStick.touchDistance m <= 26)%R ->
          HomeScreen.predictionPath st = [] /\ HomeScreen.drawn st = None)
    /\ ((26 < CueStick.touchDistance m)%R ->
          2 <= length (HomeScreen.predictionPath st) <= 259
          /\ HomeScreen.drawn st <> None)
    /\ HomeScreen.predictionPath (HomeScreen.release screenWidth screenHeight)
       = [].
Proof.
  intros sw sh x y m st.
  destruct (cue_metrics (HomeScreen.CUE_BALL_POSITION sw sh) x y)
    as (_ & _ & [_ H100] & _ & _ & H5).
  fold m in H100, H5.
  change st with (HomeScreen.handleShotChange sw sh
                    (CueStick.force m) (CueStick.angle m)).
  repeat apply conj.
  - rewrite handleShotChange_real. destruct (Rlt_dec 5 _); reflexivity.
  - intros Ht.
    assert (HF : (CueStick.force m <= 5)%R).
    { destruct (Rle_dec (CueStick.force m) 5) as [HF | HF]; [exact HF|].
      apply Rnot_le_lt, H5 in HF. lra. }
    destruct (handleShotChange_cleared sw sh _ (CueStick.angle m) HF)
      as [Hp _].
    split; [exact Hp|]. unfold HomeScreen.drawn. rewrite Hp. reflexivity.
  - intros Ht. apply H5 in Ht.
    destruct (handleShotChange_shown sw sh _ (CueStick.angle m) Ht)
      as (_ & [H2 _] & _).
    pose proof (handleShotChange_short sw sh _ (CueStick.angle m) H100) as Hs.
    split; [lia|].
    unfold HomeScreen.drawn. intros E. apply render_None in E. lia.
  - unfold HomeScreen.release, CueStick.onEnd.
    apply handleShotChange_cleared. cbn [lit Real]. unfold Q2R. simpl. lra.
Qed.

(** X23: in exact arithmetic, whatever the size of the window, the table of
    the earlier screen is 2:1, between 280 and 320 wide and between 140 and
    160 high. *)
Theorem earlier_screen_table_size :
  forall screenWidth screenHeight : R,
    let w := HomeScreenV1.TABLE_WIDTH screenWidth screenHeight in
    let h := HomeScreenV1.TABLE_HEIGHT screenWidth screenHeight in
    (w = 2 * h /\ 280 <= w <= 320 /\ 140 <= h <= 160)%R.
Proof.
  intros sw sh.
  unfold HomeScreenV1.TABLE_WIDTH, HomeScreenV1.TABLE_HEIGHT,
    HomeScreenV1.tableSize, HomeScreenV1.maxTableWidth,
    HomeScreenV1.maxTableHeight, HomeScreenV1.availableWidth,
    HomeScreenV1.availableHeight, HomeScreenV1.MARGIN,
    HomeScreenV1.RAIL_WIDTH, HomeScreenV1.SAFE_AREA_TOP,
    HomeScreenV1.SAFE_AREA_BOTTOM, HomeScreenV1.DEBUG_HEIGHT, gt.
  cbn [lt sub mul div lit Real Math_max Math_min Real_MinMax].
  replace (Q2R 2) with 2%R by (unfold Q2R; simpl; lra).
  replace (Q2R 15) with 15%R by (unfold Q2R; simpl; lra).
  replace (Q2R 20) with 20%R by (unfold Q2R; simpl; lra).
  replace (Q2R 80) with 80%R by (unfold Q2R; simpl; lra).
  replace (Q2R 100) with 100%R by (unfold Q2R; simpl; lra).
  replace (Q2R 140) with 140%R by (unfold Q2R; simpl; lra).
  replace (Q2R 160) with 160%R by (unfold Q2R; simpl; lra).
  replace (Q2R 200) with 200%R by (unfold Q2R; simpl; lra).
  replace (Q2R 280) with 280%R by (unfold Q2R; simpl; lra).
  replace (Q2R 320) with 320%R by (unfold Q2R; simpl; lra).
  replace (Q2R 350) with 350%R by (unfold Q2R; simpl; lra).
  set (mw := Rmin (sw - 20 * 2 - 15 * 2) 350).
  set (mh := Rmin (sh - 100 - 100 - 80 - 15 * 2) 200).
  unfold RealOps.ltb. destruct (Rlt_dec mh (mw / 2)); cbn [fst snd];
    unfold Rmax, Rmin; repeat destruct (Rle_dec _ _);
    repeat apply conj; lra.
Qed.
